(** * Verification of go-gori: trie node store, discovery config, test tx pool,
    Trezor protobuf getters.

    Layout: definitions first (Go-level embeddings of the source files, then
    the Database Facade of the trie node store as described by the spec),
    then the theorems. *)

From Stdlib Require Import List String Bool Arith ZArith NArith Lia.
From Stdlib Require Import Permutation Sorting.Sorted Sorting.Mergesort.
Import ListNotations.
Open Scope string_scope.

(* ------------------------------------------------------------------ *)
(** ** Go runtime fragments *)

(** A Go pointer: [None] is [nil]. *)
Definition ptr (A : Type) := option A.

(** Computations that may panic (nil dereference). *)
Inductive go (A : Type) : Type :=
| Ret (a : A)
| Panic (msg : string).
Arguments Ret {A} a.
Arguments Panic {A} msg.

Definition go_bind {A B} (m : go A) (k : A -> go B) : go B :=
  match m with
  | Ret a => k a
  | Panic s => Panic s
  end.

Notation "x <- m ;; k" := (go_bind m (fun x => k))
  (at level 61, m at next level, right associativity).

(** [*p]: dereferencing a nil pointer panics. *)
Definition load {A} (p : ptr A) : go A :=
  match p with
  | Some a => Ret a
  | None => Panic "invalid memory address or nil pointer dereference"
  end.

Definition is_nil {A} (p : ptr A) : bool :=
  match p with None => true | Some _ => false end.

(* ------------------------------------------------------------------ *)
(** ** accounts/usbwallet/trezor/messages-ethereum.pb.go *)

(** The two getter shapes protoc-gen-go emits.  For a repeated or bytes
    field [F]:
<<
    if x != nil { return x.F }
    return nil
>>
    and for an optional scalar field held behind a pointer:
<<
    if x != nil && x.F != nil { return *x.F }
    return <zero>
>>
    A Go slice is a list; the nil slice is [[]]. *)
Definition get_plain {M A} (F : M -> A) (zero : A) (x : ptr M) : go A :=
  if negb (is_nil x) then
    m <- load x ;; Ret (F m)
  else Ret zero.

Definition get_opt {M A} (F : M -> ptr A) (zero : A) (x : ptr M) : go A :=
  let cond :=
    if negb (is_nil x) then (m <- load x ;; Ret (negb (is_nil (F m))))
    else Ret false in
  c <- cond ;;
  if c then (m <- load x ;; load (F m)) else Ret zero.

(** Package-level state of messages-ethereum.pb.go behind [Descriptor]
    and [file_messages_ethereum_proto_init]. *)
Section ProtoFile.
Context {FileDescriptor GoType : Type}.
(** [protoimpl.X.CompressGZIP] *)
Context (CompressGZIP : list N -> list N).
(** [protoimpl.TypeBuilder{...}.Build().File] over the raw descriptor,
    [goTypes] and [depIdxs] (the message infos it fills in are not read
    by anything modelled here). *)
Context (TypeBuilder_Build : list N -> list GoType -> list Z -> FileDescriptor).

(** A nil slice is [[]]; [rawDescOnce] is the [sync.Once]'s done flag. *)
Record FileState := mkFileState {
  File_messages_ethereum_proto : ptr FileDescriptor;
  file_messages_ethereum_proto_rawDesc : list N;
  file_messages_ethereum_proto_rawDescOnce : bool;
  file_messages_ethereum_proto_rawDescData : list N;
  file_messages_ethereum_proto_goTypes : list GoType;
  file_messages_ethereum_proto_depIdxs : list Z }.

(** The package variables after their initialisers run: [rawDescData] is
    initialised from [rawDesc], [depIdxs] is the literal of the file. *)
Definition package_vars (rawDesc : list N) (goTypes : list GoType) : FileState :=
  mkFileState None rawDesc false rawDesc goTypes [10; 1; 1; 1; 1; 0]%Z.

(** [file_messages_ethereum_proto_rawDescGZIP]: [rawDescOnce.Do]
    compresses [rawDescData] in place the first time only. *)
Definition file_messages_ethereum_proto_rawDescGZIP (s : FileState)
    : FileState * list N :=
  if file_messages_ethereum_proto_rawDescOnce s
  then (s, file_messages_ethereum_proto_rawDescData s)
  else
    let d := CompressGZIP (file_messages_ethereum_proto_rawDescData s) in
    ({| File_messages_ethereum_proto := File_messages_ethereum_proto s;
        file_messages_ethereum_proto_rawDesc := file_messages_ethereum_proto_rawDesc s;
        file_messages_ethereum_proto_rawDescOnce := true;
        file_messages_ethereum_proto_rawDescData := d;
        file_messages_ethereum_proto_goTypes := file_messages_ethereum_proto_goTypes s;
        file_messages_ethereum_proto_depIdxs := file_messages_ethereum_proto_depIdxs s |},
     d).

(** [file_messages_ethereum_proto_init]: returns at once when the file
    descriptor is built; otherwise builds it and drops the raw descriptor,
    [goTypes] and [depIdxs].  The call to [file_messages_common_proto_init]
    and the [Exporter] closures installed when [!protoimpl.UnsafeEnabled]
    touch no variable modelled here. *)
Definition file_messages_ethereum_proto_init (s : FileState) : FileState :=
  match File_messages_ethereum_proto s with
  | Some _ => s
  | None =>
      let out := TypeBuilder_Build (file_messages_ethereum_proto_rawDesc s)
                   (file_messages_ethereum_proto_goTypes s)
                   (file_messages_ethereum_proto_depIdxs s) in
      {| File_messages_ethereum_proto := Some out;
         file_messages_ethereum_proto_rawDesc := [];
         file_messages_ethereum_proto_rawDescOnce := file_messages_ethereum_proto_rawDescOnce s;
         file_messages_ethereum_proto_rawDescData := file_messages_ethereum_proto_rawDescData s;
         file_messages_ethereum_proto_goTypes := [];
         file_messages_ethereum_proto_depIdxs := [] |}
  end.

(** [func (_ *M) Descriptor() ([]byte, []int)] for the message at index [i]:
    [return file_messages_ethereum_proto_rawDescGZIP(), []int{i}]. *)
Definition message_Descriptor (i : Z) (s : FileState)
    : FileState * (list N * list Z) :=
  let (s', d) := file_messages_ethereum_proto_rawDescGZIP s in (s', (d, [i])).

(** A run of calls into the file: [Descriptor] of the message at index
    [i], or the package's [init]; the results of the [Descriptor] calls. *)
Inductive FileCall := CallDescriptor (i : Z) | CallInit.

Fixpoint run_calls (s : FileState) (calls : list FileCall)
    : FileState * list (option (list N * list Z)) :=
  match calls with
  | [] => (s, [])
  | CallDescriptor i :: cs =>
      let (s1, r) := message_Descriptor i s in
      let (s2, rs) := run_calls s1 cs in (s2, Some r :: rs)
  | CallInit :: cs =>
      let (s2, rs) := run_calls (file_messages_ethereum_proto_init s) cs in
      (s2, None :: rs)
  end.
End ProtoFile.

(** [HDNodeType] is declared in messages-common.pb.go; only its pointer
    appears here. *)
Module HDNodeType.
Record t := mk {
  Depth : ptr N; Fingerprint : ptr N; ChildNum : ptr N;
  ChainCode : list N; PrivateKey : list N; PublicKey : list N }.
End HDNodeType.

Module EthereumGetPublicKey.
Record t := mk { AddressN : list N; ShowDisplay : ptr bool }.
Definition GetAddressN := get_plain AddressN [].
Definition GetShowDisplay := get_opt ShowDisplay false.
Definition Descriptor {FD GT} CompressGZIP := @message_Descriptor FD GT CompressGZIP 0%Z.
End EthereumGetPublicKey.

Module EthereumPublicKey.
Record t := mk { Node : ptr HDNodeType.t; Xpub : ptr string }.
Definition GetNode := get_plain Node None.
Definition GetXpub := get_opt Xpub "".
Definition Descriptor {FD GT} CompressGZIP := @message_Descriptor FD GT CompressGZIP 1%Z.
End EthereumPublicKey.

Module EthereumGetAddress.
Record t := mk { AddressN : list N; ShowDisplay : ptr bool }.
Definition GetAddressN := get_plain AddressN [].
Definition GetShowDisplay := get_opt ShowDisplay false.
Definition Descriptor {FD GT} CompressGZIP := @message_Descriptor FD GT CompressGZIP 2%Z.
End EthereumGetAddress.

Module EthereumAddress.
Record t := mk { AddressBin : list N; AddressHex : ptr string }.
Definition GetAddressBin := get_plain AddressBin [].
Definition GetAddressHex := get_opt AddressHex "".
Definition Descriptor {FD GT} CompressGZIP := @message_Descriptor FD GT CompressGZIP 3%Z.
End EthereumAddress.

Module EthereumSignTx.
Record t := mk {
  AddressN : list N; Nonce : list N; GasPrice : list N; GasLimit : list N;
  ToBin : list N; ToHex : ptr string; Value : list N;
  DataInitialChunk : list N; DataLength : ptr N; ChainId : ptr N;
  TxType : ptr N }.
Definition GetAddressN := get_plain AddressN [].
Definition GetNonce := get_plain Nonce [].
Definition GetGasPrice := get_plain GasPrice [].
Definition GetGasLimit := get_plain GasLimit [].
Definition GetToBin := get_plain ToBin [].
Definition GetToHex := get_opt ToHex "".
Definition GetValue := get_plain Value [].
Definition GetDataInitialChunk := get_plain DataInitialChunk [].
Definition GetDataLength := get_opt DataLength 0%N.
Definition GetChainId := get_opt ChainId 0%N.
Definition GetTxType := get_opt TxType 0%N.
Definition Descriptor {FD GT} CompressGZIP := @message_Descriptor FD GT CompressGZIP 4%Z.
End EthereumSignTx.

Module EthereumTxRequest.
Record t := mk {
  DataLength : ptr N; SignatureV : ptr N; SignatureR : list N;
  SignatureS : list N }.
Definition GetDataLength := get_opt DataLength 0%N.
Definition GetSignatureV := get_opt SignatureV 0%N.
Definition GetSignatureR := get_plain SignatureR [].
Definition GetSignatureS := get_plain SignatureS [].
Definition Descriptor {FD GT} CompressGZIP := @message_Descriptor FD GT CompressGZIP 5%Z.
End EthereumTxRequest.

Module EthereumTxAck.
Record t := mk { DataChunk : list N }.
Definition GetDataChunk := get_plain DataChunk [].
Definition Descriptor {FD GT} CompressGZIP := @message_Descriptor FD GT CompressGZIP 6%Z.
End EthereumTxAck.

Module EthereumSignMessage.
Record t := mk { AddressN : list N; Message : list N }.
Definition GetAddressN := get_plain AddressN [].
Definition GetMessage := get_plain Message [].
Definition Descriptor {FD GT} CompressGZIP := @message_Descriptor FD GT CompressGZIP 7%Z.
End EthereumSignMessage.

Module EthereumMessageSignature.
Record t := mk {
  AddressBin : list N; Signature : list N; AddressHex : ptr string }.
Definition GetAddressBin := get_plain AddressBin [].
Definition GetSignature := get_plain Signature [].
Definition GetAddressHex := get_opt AddressHex "".
Definition Descriptor {FD GT} CompressGZIP := @message_Descriptor FD GT CompressGZIP 8%Z.
End EthereumMessageSignature.

Module EthereumVerifyMessage.
Record t := mk {
  AddressBin : list N; Signature : list N; Message : list N;
  AddressHex : ptr string }.
Definition GetAddressBin := get_plain AddressBin [].
Definition GetSignature := get_plain Signature [].
Definition GetMessage := get_plain Message [].
Definition GetAddressHex := get_opt AddressHex "".
Definition Descriptor {FD GT} CompressGZIP := @message_Descriptor FD GT CompressGZIP 9%Z.
End EthereumVerifyMessage.

(* ------------------------------------------------------------------ *)
(** ** p2p/discover/common.go *)

(** [time.Duration] is an int64 count of nanoseconds. *)
Definition time_Second : Z := 1000000000.
Definition time_Minute : Z := (60 * time_Second)%Z.

Module discover.
Section DiscoverConfig.
(** The types behind [*ecdsa.PrivateKey], [*netutil.Netlist], the
    [Unhandled] channel, [*enode.Node], and the interface types
    [log.Logger], [enr.IdentityScheme] and [mclock.Clock].  An interface
    value is [None] when it is nil. *)
Context {PrivateKeyT NetlistT ChanT NodeT LoggerT SchemeT ClockT : Type}.
(** [log.Root()], [enode.ValidSchemes] and [mclock.System{}]. *)
Context (log_Root : LoggerT) (enode_ValidSchemes : SchemeT)
        (mclock_System : ClockT).

Record Config := mkConfig {
  PrivateKey : ptr PrivateKeyT;
  NetRestrict : ptr NetlistT;
  Unhandled : option ChanT;
  Bootnodes : list (ptr NodeT);
  PingInterval : Z;
  RefreshInterval : Z;
  V5ProtocolID : ptr (list N);
  Log : option LoggerT;
  ValidSchemes : option SchemeT;
  Clock : option ClockT }.

(** [func (cfg Config) withDefaults() Config]: [cfg] is a copy; each
    [if] assigns only its own field. *)
Definition withDefaults (cfg : Config) : Config :=
  {| PrivateKey := PrivateKey cfg;
     NetRestrict := NetRestrict cfg;
     Unhandled := Unhandled cfg;
     Bootnodes := Bootnodes cfg;
     PingInterval :=
       if (PingInterval cfg =? 0)%Z then (10 * time_Second)%Z
       else PingInterval cfg;
     RefreshInterval :=
       if (RefreshInterval cfg =? 0)%Z then (30 * time_Minute)%Z
       else RefreshInterval cfg;
     V5ProtocolID := V5ProtocolID cfg;
     Log := match Log cfg with None => Some log_Root | l => l end;
     ValidSchemes :=
       match ValidSchemes cfg with None => Some enode_ValidSchemes | s => s end;
     Clock := match Clock cfg with None => Some mclock_System | c => c end |}.
End DiscoverConfig.

(** [func min(x, y int) int]; a Go [int] is a 64-bit integer, and no
    arithmetic is done on it here. *)
Definition min (x y : Z) : Z :=
  if (x >? y)%Z then y else x.
End discover.

(* ------------------------------------------------------------------ *)
(** ** eth test helper (src/unnamed/part_000): the mock transaction pool *)

Section TestTxPool.
(** [common.Hash], [types.Transaction] and the [Hash] method of [*types.Transaction]. *)
Context {Hash Transaction : Type}.
Context (hash_eq_dec : forall a b : Hash, {a = b} + {a <> b}).
Context (txHash : Transaction -> Hash).

(** [txpool.Transaction] wraps a [*types.Transaction]. *)
Record txpool_Transaction := mkTxpoolTx { Tx : ptr Transaction }.

(** A Go map as an association list, newest binding first; a missing
    key yields the zero value (here [nil]). *)
Fixpoint map_get (m : list (Hash * ptr Transaction)) (k : Hash)
  : ptr Transaction :=
  match m with
  | [] => None
  | (k', v) :: m' => if hash_eq_dec k k' then v else map_get m' k
  end.

Definition map_set (m : list (Hash * ptr Transaction)) k v := (k, v) :: m.

Record testTxPool := mkTestTxPool {
  pool : list (Hash * ptr Transaction);
  (** the [NewTxsEvent]s sent on [txFeed], oldest first *)
  txFeed : list (list (ptr Transaction)) }.

Definition newTestTxPool : testTxPool := mkTestTxPool [] [].

Definition Has (p : testTxPool) (hash : Hash) : bool :=
  negb (is_nil (map_get (pool p) hash)).

Definition Get (p : testTxPool) (hash : Hash) : ptr txpool_Transaction :=
  match map_get (pool p) hash with
  | Some tx => Some (mkTxpoolTx (Some tx))
  | None => None
  end.

(** [tx.Hash()] reads through the receiver. *)
Definition tx_Hash (tx : ptr Transaction) : go Hash :=
  t <- load tx ;; Ret (txHash t).

(** [unwrapped[i] = tx.Tx] for every element of [txs]. *)
Fixpoint unwrap (txs : list (ptr txpool_Transaction))
  : go (list (ptr Transaction)) :=
  match txs with
  | [] => Ret []
  | tx :: rest =>
      w <- load tx ;;
      ws <- unwrap rest ;;
      Ret (Tx w :: ws)
  end.

(** [for _, tx := range unwrapped { p.pool[tx.Hash()] = tx }] *)
Fixpoint add_all (m : list (Hash * ptr Transaction))
    (unwrapped : list (ptr Transaction)) : go (list (Hash * ptr Transaction)) :=
  match unwrapped with
  | [] => Ret m
  | tx :: rest =>
      h <- tx_Hash tx ;;
      add_all (map_set m h tx) rest
  end.

(** [testTxPool.Add(txs, local, sync) []error]; the
    result slice holds [len(unwrapped)] nil errors. *)
Definition Add (p : testTxPool) (txs : list (ptr txpool_Transaction))
    (local sync : bool) : go (testTxPool * list (option string)) :=
  unwrapped <- unwrap txs ;;
  m <- add_all (pool p) unwrapped ;;
  Ret (mkTestTxPool m (app (txFeed p) [unwrapped]),
       repeat None (List.length unwrapped)).
End TestTxPool.

Section TestTxPoolPending.
Context {Hash Transaction Address TimeT BigT : Type}.
Context (hash_eq_dec : forall a b : Hash, {a = b} + {a <> b}).
Context (addr_eq_dec : forall a b : Address, {a = b} + {a <> b}).
Context (txHash : Transaction -> Hash).
(** [types.Sender(types.HomesteadSigner{}, tx)]: [Pending] drops the
    error, and [from] is then the zero address, so the sender is a total
    function of the transaction. *)
Context (Sender : Transaction -> Address).
(** [tx.Time()], [tx.GasFeeCap()], [tx.GasTipCap()] *)
Context (tx_Time : Transaction -> TimeT)
        (tx_GasFeeCap tx_GasTipCap : Transaction -> BigT).
(** [sort.Sort(types.TxByNonce(batch))]: the rearranged slice. *)
Context (sort_TxByNonce : list Transaction -> list Transaction).

Record LazyTransaction := mkLazyTransaction {
  LHash : Hash;
  LTx : ptr (@txpool_Transaction Transaction);
  LTime : TimeT;
  LGasFeeCap : BigT;
  LGasTipCap : BigT }.

(** A [map[common.Address][]T]: one entry per key; a missing key reads as
    the nil slice. *)
Fixpoint amap_get {V} (m : list (Address * list V)) (a : Address) : list V :=
  match m with
  | [] => []
  | (a', v) :: m' => if addr_eq_dec a a' then v else amap_get m' a
  end.

(** [m[a] = append(m[a], x)] *)
Fixpoint amap_append {V} (m : list (Address * list V)) (a : Address) (x : V)
    : list (Address * list V) :=
  match m with
  | [] => [(a, [x])]
  | (a', v) :: m' =>
      if addr_eq_dec a a' then (a', app v [x]) :: m' else (a', v) :: amap_append m' a x
  end.

(** The keys a [range] over the pool visits: each bound hash once. *)
Fixpoint map_keys (m : list (Hash * ptr Transaction)) : list Hash :=
  match m with
  | [] => []
  | (k, _) :: m' => k :: remove hash_eq_dec k (map_keys m')
  end.

(** [for _, tx := range p.pool { from, _ := types.Sender(...);
    batches[from] = append(batches[from], tx) }]; [Sender] reads through
    [tx]. *)
Fixpoint group_by_sender (batches : list (Address * list Transaction))
    (txs : list (ptr Transaction)) : go (list (Address * list Transaction)) :=
  match txs with
  | [] => Ret batches
  | tx :: rest =>
      t <- load tx ;;
      group_by_sender (amap_append batches (Sender t) t) rest
  end.

(** The [txpool.LazyTransaction] built for [tx]. *)
Definition lazy_of (tx : Transaction) : LazyTransaction :=
  {| LHash := txHash tx; LTx := Some (mkTxpoolTx (Some tx)); LTime := tx_Time tx;
     LGasFeeCap := tx_GasFeeCap tx; LGasTipCap := tx_GasTipCap tx |}.

(** [testTxPool.Pending(enforceTips)].  Go visits map entries in an
    order of the runtime's choosing: [ord] is that order for the range over
    [p.pool] (a permutation of its keys); the two ranges over [batches]
    visit it in the order of its entries, which only decides the order of
    [pending]'s entries. *)
Definition Pending (p : testTxPool) (enforceTips : bool) (ord : list Hash)
    : go (list (Address * list LazyTransaction)) :=
  batches <- group_by_sender [] (map (map_get hash_eq_dec (pool p)) ord) ;;
  let batches := map (fun '(a, b) => (a, sort_TxByNonce b)) batches in
  Ret (fold_left
         (fun pending '(addr, batch) =>
            fold_left (fun pending tx => amap_append pending addr (lazy_of tx))
              batch pending)
         batches []).

(** [x] as a one-element list when it is a transaction sent by [a]. *)
Definition sent_by (a : Address) (x : ptr Transaction) : list Transaction :=
  match x with
  | Some t => if addr_eq_dec (Sender t) a then [t] else []
  | None => []
  end.

(** The transactions stored in the pool whose sender is [a], in key order. *)
Definition pool_txs_from (p : testTxPool) (a : Address) : list Transaction :=
  flat_map (fun h => sent_by a (map_get hash_eq_dec (pool p) h)) (map_keys (pool p)).
End TestTxPoolPending.

(** The last transaction of [batch] whose hash is [h], if any. *)
Definition last_with {Hash Transaction} (dec : forall a b : Hash, {a = b} + {a <> b})
    (txHash : Transaction -> Hash) (h : Hash) (batch : list Transaction)
    : option Transaction :=
  fold_left (fun acc t => if dec (txHash t) h then Some t else acc) batch None.

(* ------------------------------------------------------------------ *)
(** ** The trie node store: data model (spec §3, §6, §7) *)

Local Open Scope nat_scope.

(** Node payloads are opaque byte blobs; versions are the monotonic
    sequence numbers of committed layers. *)
Definition Bytes := string.
Definition Version := nat.

(** NodeReference: hash form or path form (owner, nibble path). *)
Inductive NodeRef :=
| HashRef (h : N)
| PathRef (owner : N) (path : list N).

Definition NodeRef_eq_dec (a b : NodeRef) : {a = b} + {a <> b}.
Proof. decide equality; try apply list_eq_dec; apply N.eq_dec. Defined.

Fixpoint assoc {V} (r : NodeRef) (l : list (NodeRef * V)) : option V :=
  match l with
  | [] => None
  | (r', v) :: l' => if NodeRef_eq_dec r r' then Some v else assoc r l'
  end.

Definition assoc_remove {V} (r : NodeRef) (l : list (NodeRef * V))
  : list (NodeRef * V) :=
  filter (fun e => if NodeRef_eq_dec r (fst e) then false else true) l.

(** Error taxonomy (§7).  [StaleVersion] is this model's refusal of a
    commit whose version is not newer than every version already known:
    the spec's DiffLayer carries a monotonic sequence number (§3) and names
    no error for a commit that breaks it. *)
Inductive Err :=
| NotFound | CorruptState | Unwindable | IOFailure | CapabilityError
| StaleVersion.

Inductive result (A : Type) := Ok (a : A) | Error (e : Err).
Arguments Ok {A} a.
Arguments Error {A} e.

(** Modelled from the spec: the durable key-value store (§6), an external
    collaborator.  [marker] is the reserved scheme-marker key read at open
    time; [fail_after] injects an I/O failure: a batch of more than [k]
    operations fails when it is [Some k] (§8, "forcing an IOFailure
    mid-flush").  A batch is applied atomically (§6: "batch(ops) -> atomic
    apply"). *)
Record Store := mkStore {
  marker : option string;
  kv : list (NodeRef * Bytes);
  fail_after : option nat }.

Definition store_get (s : Store) (r : NodeRef) : option Bytes := assoc r (kv s).

(** One batch operation: write bytes, or delete on a tombstone. *)
Definition apply_op (m : list (NodeRef * Bytes)) (op : NodeRef * option Bytes)
  : list (NodeRef * Bytes) :=
  match op with
  | (r, Some b) => (r, b) :: assoc_remove r m
  | (r, None) => assoc_remove r m
  end.

Definition store_batch (s : Store) (ops : list (NodeRef * option Bytes))
  : result Store :=
  let applied := fold_left apply_op ops (kv s) in
  match fail_after s with
  | Some k =>
      if k <? List.length ops then Error IOFailure
      else Ok (mkStore (marker s) applied (Some (k - List.length ops)))
  | None => Ok (mkStore (marker s) applied None)
  end.

(* ------------------------------------------------------------------ *)
(** ** trie/database_test.go: [newTestDatabase] *)

Module trie.
Definition rawdb_HashScheme : string := "hash".
Definition rawdb_PathScheme : string := "path".

Inductive mptResolver := mkMptResolver.

(** [pathdb.Config]; [&pathdb.Config{}] is the zero value. *)
Record pathdb_Config := mkPathdbConfig {
  StateHistory : N; CleanCacheSize : N; DirtyCacheSize : N; ReadOnly : bool }.
Definition pathdb_Config_zero := mkPathdbConfig 0 0 0 false.

(** The two backends [hashdb.New] and [pathdb.New] build (their packages
    are not under src/; only the arguments they receive matter here). *)
Inductive backend :=
| hashdb_Database (diskdb : Store) (size : N) (resolver : mptResolver)
| pathdb_Database (diskdb : Store) (config : pathdb_Config).

Definition hashdb_New (diskdb : Store) (size : N) (r : mptResolver) : backend :=
  hashdb_Database diskdb size r.
Definition pathdb_New (diskdb : Store) (config : pathdb_Config) : backend :=
  pathdb_Database diskdb config.

Record Database := mkDatabase {
  diskdb : Store;
  preimages : ptr unit;
  db_backend : option backend }.

(** Modelled from the spec: [prepare] (trie/database.go, not under src/)
    builds the Database Facade over the durable store (§4.5); the backend
    field is left for the caller to install. *)
Definition prepare (diskdb : Store) (preimages : ptr unit) : Database :=
  mkDatabase diskdb preimages None.

(** [newTestDatabase(diskdb, scheme)]. *)
Definition newTestDatabase (diskdb : Store) (scheme : string) : Database :=
  let db := prepare diskdb None in
  if String.eqb scheme rawdb_HashScheme then
    mkDatabase (trie.diskdb db) (trie.preimages db)
      (Some (hashdb_New diskdb 0 mkMptResolver))
  else
    mkDatabase (trie.diskdb db) (trie.preimages db)
      (Some (pathdb_New diskdb pathdb_Config_zero)).

(** Which kind of backend is installed. *)
Definition is_hash_backend (db : Database) : option bool :=
  match db_backend db with
  | Some (hashdb_Database _ _ _) => Some true
  | Some (pathdb_Database _ _) => Some false
  | None => None
  end.
End trie.

(* ------------------------------------------------------------------ *)
(** ** The trie node store: backends and facade (spec §4) *)

(** Modelled from the spec: a DiffLayer (§3): the version it commits and its
    (reference -> bytes | tombstone) changes, newest binding first.  The
    chain is a list, newest layer first; each layer's parent is the next
    element (§9: an arena with parent indices). *)
Record DiffLayer := mkLayer {
  l_version : Version;
  l_changes : list (NodeRef * option Bytes) }.

(** Modelled from the spec: the Path-Scheme Backend (§4.3): the layer chain
    over the Disk Snapshot, and the version the Disk Snapshot represents
    (the parent of the oldest retained layer). *)
Record PathDB := mkPathDB {
  layers : list DiffLayer;
  disk_version : Version }.

(** Modelled from the spec: the Hash-Scheme Backend (§4.2): the dirty tier
    with a reference count per hash-form reference, and whether a
    CorruptState error has been raised (§7: fatal until reopened). *)
Record HashDB := mkHashDB {
  dirties : list (NodeRef * (Bytes * nat));
  hpoisoned : bool }.

Inductive Backend :=
| HashBackend (h : HashDB)
| PathBackend (p : PathDB).

Inductive Scheme := SchemeHash | SchemePath.

Definition scheme_marker (s : Scheme) : string :=
  match s with SchemeHash => trie.rawdb_HashScheme | SchemePath => trie.rawdb_PathScheme end.

(** Construction-time configuration (§6). *)
Record DbConfig := mkDbConfig {
  scheme : Scheme;
  retention_depth : nat;
  read_only : bool }.

(** Modelled from the spec: the Database Facade (§4.5).  [staged] buffers
    the writes pending the next commit, newest first. *)
Record Database := mkDatabase {
  config : DbConfig;
  store : Store;
  staged : list (NodeRef * Bytes);
  backend : Backend }.

Definition set_store db s := mkDatabase (config db) s (staged db) (backend db).
Definition set_staged db st := mkDatabase (config db) (store db) st (backend db).
Definition set_backend db b := mkDatabase (config db) (store db) (staged db) b.

(** Modelled from the spec: open (§4.5, §6): the scheme marker selects the
    backend; a marker naming the other scheme is a CorruptState error. *)
Definition open_db (s : Store) (c : DbConfig) : result Database :=
  let fresh :=
    match scheme c with
    | SchemeHash => HashBackend (mkHashDB [] false)
    | SchemePath => PathBackend (mkPathDB [] 0)
    end in
  match marker s with
  | Some m =>
      if String.eqb m (scheme_marker (scheme c)) then Ok (mkDatabase c s [] fresh)
      else Error CorruptState
  | None => Ok (mkDatabase c s [] fresh)
  end.

(** Hash scheme (§4.2). *)
Definition hash_insert (h : HashDB) (r : NodeRef) (b : Bytes) : HashDB :=
  let cnt := match assoc r (dirties h) with
             | Some (b', c) => (b', S c)
             | None => (b, 1)
             end in
  mkHashDB ((r, cnt) :: assoc_remove r (dirties h)) (hpoisoned h).

Definition hinsert (h : HashDB) (r : NodeRef) (b : Bytes) : HashDB * result unit :=
  if hpoisoned h then (h, Error CorruptState) else (hash_insert h r b, Ok tt).

Definition hdereference (h : HashDB) (r : NodeRef) : HashDB * result unit :=
  if hpoisoned h then (h, Error CorruptState) else
  match assoc r (dirties h) with
  | Some (b, S c) => (mkHashDB ((r, (b, c)) :: assoc_remove r (dirties h)) false, Ok tt)
  | _ => (mkHashDB (dirties h) true, Error CorruptState)
  end.

Definition hresolve (h : HashDB) (s : Store) (r : NodeRef) : result Bytes :=
  match assoc r (dirties h) with
  | Some (b, _) => Ok b
  | None => match store_get s r with Some b => Ok b | None => Error NotFound end
  end.

(** Path scheme (§4.3). *)
Fixpoint from_version (v : Version) (ls : list DiffLayer) : option (list DiffLayer) :=
  match ls with
  | [] => None
  | l :: t => if Nat.eqb (l_version l) v then Some ls else from_version v t
  end.

Fixpoint walk (s : Store) (r : NodeRef) (ls : list DiffLayer) : result Bytes :=
  match ls with
  | [] => match store_get s r with Some b => Ok b | None => Error NotFound end
  | l :: t =>
      match assoc r (l_changes l) with
      | Some (Some b) => Ok b
      | Some None => Error NotFound
      | None => walk s r t
      end
  end.

Definition latest (p : PathDB) : Version :=
  match layers p with [] => disk_version p | l :: _ => l_version l end.

Fixpoint split_last {A} (l : list A) : option (list A * A) :=
  match l with
  | [] => None
  | [x] => Some ([], x)
  | x :: t =>
      match split_last t with
      | Some (t', y) => Some (x :: t', y)
      | None => None
      end
  end.

(** Facade operations. *)
Definition write_guard (db : Database) : option Err :=
  if read_only (config db) then Some CapabilityError else
  match backend db with
  | HashBackend h => if hpoisoned h then Some CorruptState else None
  | PathBackend _ => None
  end.

Definition resolve (db : Database) (r : NodeRef) (v : Version) : result Bytes :=
  match backend db with
  | HashBackend h => hresolve h (store db) r
  | PathBackend p =>
      match from_version v (layers p) with
      | Some ls => walk (store db) r ls
      | None =>
          if Nat.eqb v (disk_version p) then walk (store db) r []
          else Error NotFound
      end
  end.

Definition stage (db : Database) (r : NodeRef) (b : Bytes) : Database * result unit :=
  match write_guard db with
  | Some e => (db, Error e)
  | None => (set_staged db ((r, b) :: staged db), Ok tt)
  end.

(** Flush Coordinator (§4.4): merge the oldest layer into the Disk Snapshot
    as one batch (oldest binding first, so the newest binding is applied
    last), then detach it.  In the hash scheme a flush writes every dirty
    entry with a nonzero reference count to the durable store as one batch
    and clears the dirty tier. *)
Definition flush_oldest (db : Database) : Database * result unit :=
  match backend db with
  | HashBackend h =>
      let live := filter (fun e => negb (Nat.eqb (snd (snd e)) 0)) (dirties h) in
      match store_batch (store db) (map (fun e => (fst e, Some (fst (snd e)))) live) with
      | Error e => (db, Error e)
      | Ok s' => (set_backend (set_store db s') (HashBackend (mkHashDB [] (hpoisoned h))), Ok tt)
      end
  | PathBackend p =>
      match split_last (layers p) with
      | None => (db, Ok tt)
      | Some (newer, oldest) =>
          match store_batch (store db) (rev (l_changes oldest)) with
          | Error e => (db, Error e)
          | Ok s' =>
              (set_backend (set_store db s')
                 (PathBackend (mkPathDB newer (l_version oldest))), Ok tt)
          end
      end
  end.

(** [commit(v)]: the staged writes become the inserts of the hash scheme,
    or a new head layer of the path scheme, followed by a flush when the
    chain exceeds the retention depth; a failed flush abandons the whole
    commit (§5). *)
Definition commit (db : Database) (v : Version) : Database * result unit :=
  match write_guard db with
  | Some e => (db, Error e)
  | None =>
      match backend db with
      | HashBackend h =>
          let h' := fold_left (fun h e => hash_insert h (fst e) (snd e))
                      (rev (staged db)) h in
          (set_backend (set_staged db []) (HashBackend h'), Ok tt)
      | PathBackend p =>
          if v <=? latest p then (db, Error StaleVersion) else
          let l := mkLayer v (map (fun e => (fst e, Some (snd e))) (staged db)) in
          let p' := mkPathDB (l :: layers p) (disk_version p) in
          let db1 := set_backend (set_staged db []) (PathBackend p') in
          if retention_depth (config db) <? List.length (layers p') then
            match flush_oldest db1 with
            | (db2, Ok _) => (db2, Ok tt)
            | (_, Error e) => (db, Error e)
            end
          else (db1, Ok tt)
      end
  end.

(** [rollback(v)]: keep [v]'s layer and its ancestors (§4.3). *)
Definition rollback (db : Database) (v : Version) : Database * result unit :=
  match write_guard db with
  | Some e => (db, Error e)
  | None =>
      match backend db with
      | HashBackend _ => (db, Error Unwindable)
      | PathBackend p =>
          match from_version v (layers p) with
          | Some ls => (set_backend db (PathBackend (mkPathDB ls (disk_version p))), Ok tt)
          | None => (db, Error Unwindable)
          end
      end
  end.

(** Reference-count operations of the hash scheme (§4.2), run in order
    until the first error. *)
Inductive HOp :=
| HInsert (r : NodeRef) (b : Bytes)
| HDeref (r : NodeRef).

Definition op_ref (op : HOp) : NodeRef :=
  match op with HInsert r _ => r | HDeref r => r end.

Definition hstep (h : HashDB) (op : HOp) : HashDB * result unit :=
  match op with
  | HInsert r b => hinsert h r b
  | HDeref r => hdereference h r
  end.

Fixpoint hrun (h : HashDB) (ops : list HOp) : HashDB * result unit :=
  match ops with
  | [] => (h, Ok tt)
  | op :: t =>
      match hstep h op with
      | (h', Ok _) => hrun h' t
      | (h', Error e) => (h', Error e)
      end
  end.

(** How many of [ops] insert, and how many dereference, the reference [r]. *)
Fixpoint n_insert (r : NodeRef) (ops : list HOp) : nat :=
  match ops with
  | [] => 0
  | HInsert r' _ :: t =>
      if NodeRef_eq_dec r r' then S (n_insert r t) else n_insert r t
  | HDeref _ :: t => n_insert r t
  end.

Fixpoint n_deref (r : NodeRef) (ops : list HOp) : nat :=
  match ops with
  | [] => 0
  | HInsert _ _ :: t => n_deref r t
  | HDeref r' :: t =>
      if NodeRef_eq_dec r r' then S (n_deref r t) else n_deref r t
  end.

Definition hcount (h : HashDB) (r : NodeRef) : nat :=
  match assoc r (dirties h) with Some (_, c) => c | None => 0 end.

(** Hash-form references are content hashes (§3: collisions treated as
    impossible), so any bytes the hash scheme already holds or has staged
    under [r] are [b] itself. *)
Definition content_addressed (db : Database) (r : NodeRef) (b : Bytes) : Prop :=
  match backend db with
  | HashBackend h =>
      (forall b' c, assoc r (dirties h) = Some (b', c) -> b' = b) /\
      (forall b', In (r, b') (staged db) -> b' = b)
  | PathBackend _ => True
  end.

(** Invariant of path-scheme states: layer versions strictly decrease from
    the head and all exceed the Disk Snapshot's version. *)
Fixpoint desc (l : list nat) : Prop :=
  match l with
  | [] => True
  | x :: t => Forall (fun y => y < x) t /\ desc t
  end.

Definition wf (db : Database) : Prop :=
  match backend db with
  | PathBackend p =>
      desc (map l_version (layers p)) /\
      Forall (fun v => disk_version p < v) (map l_version (layers p))
  | HashBackend _ => True
  end.

(** States reachable from [open] through the facade's operations. *)
Inductive reachable : Database -> Prop :=
| reach_open s c db : open_db s c = Ok db -> reachable db
| reach_stage db r b : reachable db -> reachable (fst (stage db r b))
| reach_commit db v : reachable db -> reachable (fst (commit db v))
| reach_rollback db v : reachable db -> reachable (fst (rollback db v)).

(** Statements used by the claims below. *)
Definition nil_safe_plain {M A} (get : ptr M -> go A) (F : M -> A) (zero : A) :=
  forall x, get x = Ret (match x with Some m => F m | None => zero end).

Definition nil_safe_opt {M A} (get : ptr M -> go A) (F : M -> ptr A) (zero : A) :=
  forall x, get x =
    Ret (match x with
         | Some m => match F m with Some a => a | None => zero end
         | None => zero
         end).

(** A sort of [uint64] nonces, used to instantiate [sort.Sort] in the
    examples below. *)
Definition nonce_sort (l : list N) : list N :=
  map N.of_nat (NatSort.sort (map N.to_nat l)).

(** Concrete inputs used by the witnesses and counterexamples. *)
Definition ex_P : NodeRef := PathRef 0%N [].

(** The §8 scenario after [commit(v=2)] with retention depth 1: layer v2 on
    top of a Disk Snapshot holding v1. *)
Definition ex_db_v2 : Database :=
  mkDatabase (mkDbConfig SchemePath 1 false)
    (mkStore (Some "path") [(ex_P, "root-v1")] None) []
    (PathBackend (mkPathDB [mkLayer 2 [(ex_P, Some "root-v2")]] 1)).

(** A path-scheme instance with one staged write and a store that fails
    the next batch. *)
Definition ex_db_failing : Database :=
  mkDatabase (mkDbConfig SchemePath 0 false)
    (mkStore (Some "path") [] (Some 0)) [(ex_P, "x")]
    (PathBackend (mkPathDB [] 0)).

(** A read-only path-scheme instance with an empty chain. *)
Definition ex_db_read_only : Database :=
  mkDatabase (mkDbConfig SchemePath 1 true)
    (mkStore (Some "path") [] None) [] (PathBackend (mkPathDB [] 0)).

(** Opened, then two commits of [ex_P] with retention depth 2. *)
Definition ex_db_open : Database :=
  mkDatabase (mkDbConfig SchemePath 2 false) (mkStore None [] None) []
    (PathBackend (mkPathDB [] 0)).
Definition ex_db_two : Database :=
  fst (commit (fst (stage (fst (commit (fst (stage ex_db_open ex_P "v1")) 1))
                     ex_P "v2")) 2).

(** Opened with retention depth 3, then commits 1 and 2 of [ex_P] and a
    commit 3 that writes only [ex_Q]. *)
Definition ex_Q : NodeRef := PathRef 0%N [1%N].
Definition ex_db_open3 : Database :=
  mkDatabase (mkDbConfig SchemePath 3 false) (mkStore None [] None) []
    (PathBackend (mkPathDB [] 0)).
Definition ex_db_three : Database :=
  fst (commit (fst (stage
    (fst (commit (fst (stage (fst (commit (fst (stage ex_db_open3 ex_P "v1")) 1))
                     ex_P "v2")) 2))
    ex_Q "q3")) 3).

(** Opened with retention depth 1; [ex_P] committed as "a" at version 1 and
    as "b" at version 2 (which flushes layer 1), then "c" staged. *)
Definition ex_db_depth1 : Database :=
  mkDatabase (mkDbConfig SchemePath 1 false) (mkStore None [] None) []
    (PathBackend (mkPathDB [] 0)).
Definition ex_db_pre3 : Database :=
  fst (stage
    (fst (commit (fst (stage (fst (commit (fst (stage ex_db_depth1 ex_P "a")) 1))
                     ex_P "b")) 2))
    ex_P "c").

(* ================================================================== *)
(** * Theorems *)

Local Open Scope list_scope.

(** ** Trezor getters *)

Lemma get_plain_ret {M A} (F : M -> A) z : nil_safe_plain (get_plain F z) F z.
Proof. intros [m|]; reflexivity. Qed.

Lemma get_opt_ret {M A} (F : M -> ptr A) z : nil_safe_opt (get_opt F z) F z.
Proof. intros [m|]; [destruct (F m) eqn:E; cbn; rewrite E; reflexivity | reflexivity]. Qed.

Create HintDb getters.
#[local] Hint Extern 1 (nil_safe_plain _ _ _) => apply get_plain_ret : getters.
#[local] Hint Extern 1 (nil_safe_opt _ _ _) => apply get_opt_ret : getters.

(** C10: every generated getter of messages-ethereum.pb.go is total and
    never dereferences nil: on a nil receiver, or on a nil optional field,
    it returns the zero value of the field type (nil slice, nil pointer,
    [false], [""], [0]); otherwise it returns the field. *)
Theorem trezor_getters_nil_safe :
  nil_safe_plain EthereumGetPublicKey.GetAddressN EthereumGetPublicKey.AddressN [] /\
  nil_safe_opt EthereumGetPublicKey.GetShowDisplay EthereumGetPublicKey.ShowDisplay false /\
  nil_safe_plain EthereumPublicKey.GetNode EthereumPublicKey.Node None /\
  nil_safe_opt EthereumPublicKey.GetXpub EthereumPublicKey.Xpub "" /\
  nil_safe_plain EthereumGetAddress.GetAddressN EthereumGetAddress.AddressN [] /\
  nil_safe_opt EthereumGetAddress.GetShowDisplay EthereumGetAddress.ShowDisplay false /\
  nil_safe_plain EthereumAddress.GetAddressBin EthereumAddress.AddressBin [] /\
  nil_safe_opt EthereumAddress.GetAddressHex EthereumAddress.AddressHex "" /\
  nil_safe_plain EthereumSignTx.GetAddressN EthereumSignTx.AddressN [] /\
  nil_safe_plain EthereumSignTx.GetNonce EthereumSignTx.Nonce [] /\
  nil_safe_plain EthereumSignTx.GetGasPrice EthereumSignTx.GasPrice [] /\
  nil_safe_plain EthereumSignTx.GetGasLimit EthereumSignTx.GasLimit [] /\
  nil_safe_plain EthereumSignTx.GetToBin EthereumSignTx.ToBin [] /\
  nil_safe_opt EthereumSignTx.GetToHex EthereumSignTx.ToHex "" /\
  nil_safe_plain EthereumSignTx.GetValue EthereumSignTx.Value [] /\
  nil_safe_plain EthereumSignTx.GetDataInitialChunk EthereumSignTx.DataInitialChunk [] /\
  nil_safe_opt EthereumSignTx.GetDataLength EthereumSignTx.DataLength 0%N /\
  nil_safe_opt EthereumSignTx.GetChainId EthereumSignTx.ChainId 0%N /\
  nil_safe_opt EthereumSignTx.GetTxType EthereumSignTx.TxType 0%N /\
  nil_safe_opt EthereumTxRequest.GetDataLength EthereumTxRequest.DataLength 0%N /\
  nil_safe_opt EthereumTxRequest.GetSignatureV EthereumTxRequest.SignatureV 0%N /\
  nil_safe_plain EthereumTxRequest.GetSignatureR EthereumTxRequest.SignatureR [] /\
  nil_safe_plain EthereumTxRequest.GetSignatureS EthereumTxRequest.SignatureS [] /\
  nil_safe_plain EthereumTxAck.GetDataChunk EthereumTxAck.DataChunk [] /\
  nil_safe_plain EthereumSignMessage.GetAddressN EthereumSignMessage.AddressN [] /\
  nil_safe_plain EthereumSignMessage.GetMessage EthereumSignMessage.Message [] /\
  nil_safe_plain EthereumMessageSignature.GetAddressBin EthereumMessageSignature.AddressBin [] /\
  nil_safe_plain EthereumMessageSignature.GetSignature EthereumMessageSignature.Signature [] /\
  nil_safe_opt EthereumMessageSignature.GetAddressHex EthereumMessageSignature.AddressHex "" /\
  nil_safe_plain EthereumVerifyMessage.GetAddressBin EthereumVerifyMessage.AddressBin [] /\
  nil_safe_plain EthereumVerifyMessage.GetSignature EthereumVerifyMessage.Signature [] /\
  nil_safe_plain EthereumVerifyMessage.GetMessage EthereumVerifyMessage.Message [] /\
  nil_safe_opt EthereumVerifyMessage.GetAddressHex EthereumVerifyMessage.AddressHex "".
Proof. repeat split; auto with getters. Qed.

(** ** Discovery configuration *)

(** C9: [withDefaults] keeps every field other than the five defaulted
    ones, keeps each of the five when it is already non-zero (non-nil),
    sets it to its fixed default (10s, 30min, [log.Root()],
    [enode.ValidSchemes], [mclock.System{}]) when it is zero, and applying
    it twice is the same as applying it once. *)
Theorem withDefaults_frame_idempotent
    {PK NL Ch Nd Lg Sc Cl : Type} (root : Lg) (schemes : Sc) (sys : Cl)
    (cfg : @discover.Config PK NL Ch Nd Lg Sc Cl) :
  let d := discover.withDefaults root schemes sys cfg in
  discover.PrivateKey d = discover.PrivateKey cfg /\
  discover.NetRestrict d = discover.NetRestrict cfg /\
  discover.Unhandled d = discover.Unhandled cfg /\
  discover.Bootnodes d = discover.Bootnodes cfg /\
  discover.V5ProtocolID d = discover.V5ProtocolID cfg /\
  discover.PingInterval d =
    (if (discover.PingInterval cfg =? 0)%Z then 10000000000%Z
     else discover.PingInterval cfg) /\
  discover.RefreshInterval d =
    (if (discover.RefreshInterval cfg =? 0)%Z then 1800000000000%Z
     else discover.RefreshInterval cfg) /\
  discover.Log d =
    (match discover.Log cfg with None => Some root | Some l => Some l end) /\
  discover.ValidSchemes d =
    (match discover.ValidSchemes cfg with None => Some schemes | Some s => Some s end) /\
  discover.Clock d =
    (match discover.Clock cfg with None => Some sys | Some c => Some c end) /\
  discover.withDefaults root schemes sys d = d.
Proof.
  destruct cfg as [pk nr un bn pi ri v5 lg vs cl].
  unfold discover.withDefaults; cbn.
  destruct (Z.eqb_spec pi 0), (Z.eqb_spec ri 0), lg, vs, cl; subst; cbn;
    repeat match goal with
           | H : ?x <> 0%Z |- context [(?x =? 0)%Z] =>
               rewrite (proj2 (Z.eqb_neq x 0) H)
           end; repeat split.
Qed.

(** ** Mock transaction pool *)

Section TxPoolProofs.
Context {Hash Transaction : Type}.
Context (dec : forall a b : Hash, {a = b} + {a <> b}).
Context (txHash : Transaction -> Hash).

Definition wrap (t : Transaction) : ptr txpool_Transaction :=
  Some (mkTxpoolTx (Some t)).

Lemma unwrap_wrapped (ts : list Transaction) :
  unwrap (map wrap ts) = Ret (map Some ts).
Proof. induction ts as [|t ts IH]; cbn; [reflexivity | rewrite IH; reflexivity]. Qed.

Lemma add_all_some m (ts : list Transaction) :
  add_all txHash m (map Some ts) =
  Ret (rev (map (fun t => (txHash t, Some t)) ts) ++ m).
Proof.
  revert m; induction ts as [|t ts IH]; intro m; cbn; [reflexivity|].
  rewrite IH, <- app_assoc; reflexivity.
Qed.

Lemma map_get_app (l1 l2 : list (Hash * ptr Transaction)) (k : Hash) :
  (forall k' v, In (k', v) l1 -> v <> None) ->
  map_get dec (l1 ++ l2) k =
  match map_get dec l1 k with Some v => Some v | None => map_get dec l2 k end.
Proof.
  induction l1 as [|[k' v] l1 IH]; intro Hv; cbn; [reflexivity|].
  destruct (dec k k').
  - destruct v; [reflexivity|]. exfalso; eapply Hv; [left; reflexivity | reflexivity].
  - apply IH; intros; eapply Hv; right; eassumption.
Qed.

Lemma map_get_bound (l : list (Hash * ptr Transaction)) (k : Hash) (t0 : Transaction) :
  In (k, Some t0) l ->
  (forall k' v, In (k', v) l -> exists t, v = Some t /\ txHash t = k') ->
  exists t, map_get dec l k = Some t /\ txHash t = k.
Proof.
  induction l as [|[k' v] l IH]; intros Hin Hall; [destruct Hin|]; cbn.
  destruct (dec k k') as [->|Hne].
  - destruct (Hall k' v (or_introl eq_refl)) as (t & -> & Ht); eauto.
  - destruct Hin as [Heq|Hin]; [inversion Heq; congruence|].
    apply IH; [assumption|]. intros; apply Hall; right; assumption.
Qed.
End TxPoolProofs.

(** C8: adding a batch of transactions to the mock pool never fails;
    afterwards every transaction [tx] of the batch is reported by [Has] and
    returned, wrapped, by [Get] under [tx.Hash()] (hashes are
    collision-free, as the pool's use of them as keys assumes), and the
    result is one nil error per transaction. *)
Theorem testTxPool_Add_Has_Get
    {Hash Transaction : Type} (dec : forall a b : Hash, {a = b} + {a <> b})
    (txHash : Transaction -> Hash)
    (Hinj : forall a b, txHash a = txHash b -> a = b)
    (p : testTxPool) (batch : list Transaction) (local sync : bool)
    (tx : Transaction) (Hin : In tx batch) :
  exists p' errs,
    Add txHash p (map wrap batch) local sync = Ret (p', errs) /\
    Has dec p' (txHash tx) = true /\
    Get dec p' (txHash tx) = Some (mkTxpoolTx (Some tx)) /\
    errs = repeat None (List.length batch).
Proof.
  unfold Add. rewrite unwrap_wrapped; cbn [go_bind].
  rewrite add_all_some; cbn [go_bind].
  set (l1 := rev (map (fun t => (txHash t, Some t)) batch)).
  assert (Hall : forall k' v, In (k', v) l1 -> exists t, v = Some t /\ txHash t = k').
  { intros k' v Hk. unfold l1 in Hk; rewrite <- in_rev in Hk.
    apply in_map_iff in Hk as (t & Heq & _).
    inversion Heq; eauto. }
  destruct (map_get_bound dec txHash l1 (txHash tx) tx) as (t & Hget & Ht); auto.
  { unfold l1; rewrite <- in_rev; apply in_map_iff; eauto. }
  apply Hinj in Ht; subst t.
  eexists; eexists; split; [reflexivity|].
  assert (Hg : map_get dec (l1 ++ pool p) (txHash tx) = Some tx).
  { rewrite map_get_app, Hget; [reflexivity|].
    intros k' v Hk. destruct (Hall k' v Hk) as (t & -> & _); discriminate. }
  unfold Has, Get; cbn [pool]; rewrite Hg.
  rewrite length_map; auto.
Qed.

(** ** Backend selection in [newTestDatabase] *)

Definition marker_says_hash (d : Store) : bool :=
  match marker d with Some m => String.eqb m trie.rawdb_HashScheme | None => false end.

(** C1 (as stated fails): the installed backend is not a function of the
    store's scheme marker: a store marked "hash" opened with scheme "path"
    gets the path-scheme backend, and no scheme-mismatch error is raised. *)
Lemma newTestDatabase_ignores_marker :
  ~ (forall d s, trie.is_hash_backend (trie.newTestDatabase d s) = Some (marker_says_hash d)).
Proof.
  intro H. specialize (H (mkStore (Some trie.rawdb_HashScheme) [] None) trie.rawdb_PathScheme).
  vm_compute in H. discriminate H.
Qed.

(** C1 (amended): [newTestDatabase] always returns a database over [diskdb]
    whose backend is chosen from the [scheme] argument alone: [hashdb]
    when it equals [rawdb.HashScheme], [pathdb] with the zero config for
    every other string; the store's contents are not consulted. *)
Theorem newTestDatabase_backend (diskdb : Store) (scheme : string) :
  trie.newTestDatabase diskdb scheme =
  trie.mkDatabase diskdb None
    (Some (if String.eqb scheme trie.rawdb_HashScheme
           then trie.hashdb_New diskdb 0 trie.mkMptResolver
           else trie.pathdb_New diskdb trie.pathdb_Config_zero)).
Proof. unfold trie.newTestDatabase; cbn. destruct (String.eqb scheme _); reflexivity. Qed.

(** ** Trie node store: lookup lemmas *)

Lemma assoc_remove_spec {V} (r r' : NodeRef) (m : list (NodeRef * V)) :
  assoc r (assoc_remove r' m) = if NodeRef_eq_dec r r' then None else assoc r m.
Proof.
  unfold assoc_remove.
  induction m as [|[k v] m IH]; cbn.
  - destruct (NodeRef_eq_dec r r'); reflexivity.
  - destruct (NodeRef_eq_dec r' k) as [<-|Hk]; cbn.
    + rewrite IH. destruct (NodeRef_eq_dec r r'); reflexivity.
    + destruct (NodeRef_eq_dec r k) as [->|Hrk].
      * destruct (NodeRef_eq_dec k r'); [congruence | reflexivity].
      * exact IH.
Qed.

Lemma assoc_apply_op (m : list (NodeRef * Bytes)) r op :
  assoc r (apply_op m op) =
  if NodeRef_eq_dec r (fst op) then snd op else assoc r m.
Proof.
  destruct op as [r' [b|]]; cbn; rewrite ?assoc_remove_spec;
    destruct (NodeRef_eq_dec r r'); reflexivity.
Qed.

(** Applying a layer's changes oldest-first leaves, for every reference,
    the layer's newest entry, or the old contents when it has none. *)
Lemma assoc_apply_layer (chs : list (NodeRef * option Bytes)) m r :
  assoc r (fold_left apply_op (rev chs) m) =
  match assoc r chs with Some e => e | None => assoc r m end.
Proof.
  induction chs as [|[r' e] chs IH]; cbn [rev assoc]; [reflexivity|].
  rewrite fold_left_app; cbn [fold_left]. rewrite assoc_apply_op; cbn [fst snd].
  destruct (NodeRef_eq_dec r r'); [reflexivity | exact IH].
Qed.

Lemma store_batch_kv s ops s' :
  store_batch s ops = Ok s' -> kv s' = fold_left apply_op ops (kv s).
Proof.
  unfold store_batch. destruct (fail_after s) as [k|].
  - destruct (k <? List.length ops); intro H; inversion H; reflexivity.
  - intro H; inversion H; reflexivity.
Qed.

Lemma split_last_app {A} (l newer : list A) x :
  split_last l = Some (newer, x) -> l = newer ++ [x].
Proof.
  revert newer; induction l as [|a l IH]; intros newer H; cbn in H; [discriminate|].
  destruct l as [|b l].
  - inversion H; reflexivity.
  - destruct (split_last (b :: l)) as [[t' y]|] eqn:E; [|discriminate].
    inversion H; subst. rewrite (IH t' eq_refl). reflexivity.
Qed.

Lemma split_last_nonempty {A} (l : list A) :
  l <> [] -> exists newer x, split_last l = Some (newer, x).
Proof.
  induction l as [|a l IH]; intro H; [congruence|].
  destruct l as [|b l]; [exists [], a; reflexivity|].
  assert (Hne : b :: l <> []) by discriminate.
  destruct (IH Hne) as (n & x & E).
  assert (Hs : split_last (a :: b :: l) =
    match split_last (b :: l) with
    | Some (t', y) => Some (a :: t', y)
    | None => None
    end) by reflexivity.
  rewrite Hs, E. eauto.
Qed.

Lemma from_version_app v (a b : list DiffLayer) :
  from_version v (a ++ b) =
  match from_version v a with Some ls => Some (ls ++ b) | None => from_version v b end.
Proof.
  induction a as [|l a IH]; cbn; [reflexivity|].
  destruct (Nat.eqb (l_version l) v); [reflexivity | exact IH].
Qed.

Lemma from_version_suffix v l ls :
  from_version v l = Some ls -> exists pre, l = pre ++ ls.
Proof.
  induction l as [|x l IH]; cbn; [discriminate|].
  destruct (Nat.eqb (l_version x) v).
  - intro H; inversion H; exists []; reflexivity.
  - intro H; destruct (IH H) as (pre & ->); exists (x :: pre); reflexivity.
Qed.

Lemma from_version_head v l post :
  l_version l = v -> from_version v (l :: post) = Some (l :: post).
Proof. intro H; cbn; rewrite H, Nat.eqb_refl; reflexivity. Qed.

Lemma from_version_skip v pre ls :
  ~ In v (map l_version pre) -> from_version v (pre ++ ls) = from_version v ls.
Proof.
  induction pre as [|x pre IH]; intro Hn; cbn; [reflexivity|].
  destruct (Nat.eqb_spec (l_version x) v) as [E|_].
  - exfalso; apply Hn; left; exact E.
  - apply IH; intro; apply Hn; right; assumption.
Qed.

(** Walking a chain whose oldest layer has been merged into the store is
    the same as walking the chain with that layer still in place. *)
Lemma walk_flushed s s' r (newer : list DiffLayer) oldest :
  kv s' = fold_left apply_op (rev (l_changes oldest)) (kv s) ->
  walk s r (newer ++ [oldest]) = walk s' r newer.
Proof.
  intro Hkv. induction newer as [|l newer IH]; cbn.
  - unfold store_get; rewrite Hkv, assoc_apply_layer.
    destruct (assoc r (l_changes oldest)) as [[b|]|]; reflexivity.
  - destruct (assoc r (l_changes l)) as [[b|]|]; [reflexivity | reflexivity | exact IH].
Qed.

(** Flushing the oldest layer does not change what any version still in the
    chain resolves to. *)
Lemma flush_oldest_resolve db db' p r v :
  backend db = PathBackend p ->
  In v (map l_version (layers p)) ->
  flush_oldest db = (db', Ok tt) ->
  resolve db r v = resolve db' r v.
Proof.
  intros Hb Hin Hf. unfold flush_oldest in Hf; rewrite Hb in Hf.
  destruct (split_last (layers p)) as [[newer oldest]|] eqn:Es.
  2:{ destruct (layers p) eqn:El; [destruct Hin|].
      destruct (split_last_nonempty (layers p)) as (? & ? & E); [rewrite El; discriminate|].
      rewrite El in E; congruence. }
  destruct (store_batch (store db) (rev (l_changes oldest))) as [s'|e] eqn:Eb;
    [|discriminate].
  inversion Hf; subst db'; clear Hf.
  apply store_batch_kv in Eb. apply split_last_app in Es.
  unfold resolve; rewrite Hb; cbn. rewrite Es, from_version_app.
  destruct (from_version v newer) as [ls|] eqn:En.
  - exact (walk_flushed (store db) s' r ls oldest Eb).
  - rewrite Es, map_app in Hin. apply in_app_or in Hin as [Hin|[Hv|[]]].
    + exfalso. clear -Hin En. induction newer as [|x newer IH]; [destruct Hin|].
      cbn in Hin, En. destruct (Nat.eqb_spec (l_version x) v); [discriminate|].
      destruct Hin; [contradiction | auto].
    + cbn. rewrite Hv, Nat.eqb_refl.
      exact (walk_flushed (store db) s' r [] oldest Eb).
Qed.

(** ** Atomic commit (C4) *)

(** C4: a commit that fails, whether its flush hits an I/O failure or it
    is refused, returns the pre-commit state unchanged (chain, staged
    writes, store), so every reference resolves at every version exactly as
    before. *)
Theorem commit_failure_leaves_state db v db' e
    (Hc : commit db v = (db', Error e)) :
  db' = db /\ forall r w, resolve db' r w = resolve db r w.
Proof.
  assert (db' = db) as ->; [|split; reflexivity].
  unfold commit in Hc.
  destruct (write_guard db) as [e'|]; [inversion Hc; reflexivity|].
  destruct (backend db) as [h|p]; [discriminate|].
  destruct (v <=? latest p); [inversion Hc; reflexivity|].
  match type of Hc with context [if ?c then _ else _] => destruct c end;
    [|discriminate].
  match type of Hc with context [flush_oldest ?d] =>
    destruct (flush_oldest d) as [d2 [u|e2]] end;
    inversion Hc; reflexivity.
Qed.

Lemma commit_failure_leaves_state_witness :
  commit ex_db_failing 1 = (ex_db_failing, Error IOFailure) /\
  (forall r w, resolve ex_db_failing r w = resolve ex_db_failing r w).
Proof.
  split; [reflexivity|].
  exact (proj2 (commit_failure_leaves_state ex_db_failing 1 ex_db_failing IOFailure eq_refl)).
Defined.

(** ** Round-trip (C2) *)

Lemma hash_insert_assoc h r r' b :
  assoc r (dirties (hash_insert h r' b)) =
  if NodeRef_eq_dec r r' then
    Some (match assoc r (dirties h) with Some (b0, c) => (b0, S c) | None => (b, 1) end)
  else assoc r (dirties h).
Proof.
  unfold hash_insert; cbn [dirties assoc].
  destruct (NodeRef_eq_dec r r') as [->|Hne]; [reflexivity|].
  rewrite assoc_remove_spec. destruct (NodeRef_eq_dec r r'); [contradiction | reflexivity].
Qed.

Lemma fold_insert_bytes r b (l : list (NodeRef * Bytes)) h :
  (forall b', In (r, b') l -> b' = b) ->
  (forall b' c, assoc r (dirties h) = Some (b', c) -> b' = b) ->
  forall b' c,
    assoc r (dirties (fold_left (fun h e => hash_insert h (fst e) (snd e)) l h)) =
    Some (b', c) -> b' = b.
Proof.
  revert h; induction l as [|[r' b''] l IH]; intros h Hl Hh; cbn; [exact Hh|].
  apply IH; [intros; apply Hl; right; assumption|].
  intros b' c. rewrite hash_insert_assoc; cbn [fst snd].
  destruct (NodeRef_eq_dec r r') as [Hrr|_]; [subst r'|apply Hh].
  destruct (assoc r (dirties h)) as [[b0 c0]|] eqn:E; intro Heq; inversion Heq; subst.
  - exact (Hh _ _ eq_refl).
  - apply Hl; left; reflexivity.
Qed.

(** C2: staging [b] under [r] and committing version [v] makes
    [resolve(r, v)] return [b], in either scheme.  In the hash scheme [r]
    is the content hash of [b] ([content_addressed]); the hypotheses on
    [stage] and [commit] say that both calls succeed. *)
Theorem stage_commit_resolve db r b v db1 db2
    (Hca : content_addressed db r b)
    (Hs : stage db r b = (db1, Ok tt))
    (Hc : commit db1 v = (db2, Ok tt)) :
  resolve db2 r v = Ok b.
Proof.
  unfold stage in Hs. destruct (write_guard db) eqn:Eg; [discriminate|].
  inversion Hs; subst db1; clear Hs.
  unfold commit in Hc.
  assert (Eg' : write_guard (set_staged db ((r, b) :: staged db)) = None) by exact Eg.
  rewrite Eg' in Hc. clear Eg Eg'.
  destruct db as [c s st be]; unfold content_addressed in Hca.
  cbn [backend staged set_staged] in Hca, Hc.
  destruct be as [h|p].
  - inversion Hc; subst db2; clear Hc. unfold resolve, hresolve; cbn.
    rewrite fold_left_app; cbn [fold_left fst snd].
    rewrite hash_insert_assoc. destruct (NodeRef_eq_dec r r) as [_|]; [|congruence].
    destruct Hca as [Hd Hst].
    destruct (assoc r (dirties (fold_left (fun h e => hash_insert h (fst e) (snd e))
                                  (rev st) h))) as [[b0 c0]|] eqn:E; [|reflexivity].
    apply (fold_insert_bytes r b) in E; [subst; reflexivity | | exact Hd].
    intros b' Hin; apply Hst, in_rev, Hin.
  - destruct (v <=? latest p); [discriminate|].
    match type of Hc with context [if ?cond then _ else _] => destruct cond end.
    + match type of Hc with context [flush_oldest ?d] =>
        destruct (flush_oldest d) as [d2 [u|e]] eqn:Ef end; [|discriminate].
      inversion Hc; subst d2; clear Hc. destruct u.
      eapply (flush_oldest_resolve _ _ _ r v) in Ef;
        [rewrite <- Ef | reflexivity | left; reflexivity].
      unfold resolve; cbn. rewrite Nat.eqb_refl; cbn.
      destruct (NodeRef_eq_dec r r); [reflexivity | congruence].
    + inversion Hc; subst db2.
      unfold resolve; cbn. rewrite Nat.eqb_refl; cbn.
      destruct (NodeRef_eq_dec r r); [reflexivity | congruence].
Qed.

Lemma stage_commit_resolve_witness :
  resolve (fst (commit (fst (stage ex_db_v2 ex_P "root-v3")) 3)) ex_P 3 = Ok "root-v3".
Proof.
  exact (stage_commit_resolve ex_db_v2 ex_P "root-v3" 3 _ _ I eq_refl eq_refl).
Defined.

(** ** Reachable path-scheme states keep versions ordered *)

Lemma desc_app_l (a b : list nat) : desc (a ++ b) -> desc a.
Proof.
  induction a as [|x a IH]; cbn; [trivial|].
  intros [Hx Hd]. split; [|auto]. apply Forall_app in Hx; tauto.
Qed.

Lemma desc_app_r (a b : list nat) :
  desc (a ++ b) -> desc b /\ Forall (fun x => Forall (fun y => y < x) b) a.
Proof.
  induction a as [|x a IH]; cbn; [auto|].
  intros [Hx Hd]. destruct (IH Hd) as [Hb Ha]. apply Forall_app in Hx as [_ Hx].
  auto.
Qed.

Lemma wf_flush db : wf db -> wf (fst (flush_oldest db)).
Proof.
  unfold flush_oldest. destruct (backend db) as [h|p] eqn:Eb.
  { intros _. match goal with |- context [store_batch ?s ?o] => destruct (store_batch s o) end;
      unfold wf; cbn; [exact I | rewrite Eb; exact I]. }
  destruct (split_last (layers p)) as [[newer oldest]|] eqn:Es; [|auto].
  destruct (store_batch (store db) (rev (l_changes oldest))); [|auto].
  unfold wf; rewrite Eb; cbn. intros [Hd _].
  apply split_last_app in Es. rewrite Es, map_app in Hd. split.
  - exact (desc_app_l _ _ Hd).
  - apply desc_app_r in Hd as [_ Ha]. eapply Forall_impl; [|exact Ha].
    intros x Hx. inversion Hx; assumption.
Qed.

Lemma wf_commit db v : wf db -> wf (fst (commit db v)).
Proof.
  intro Hw. unfold commit.
  destruct (write_guard db); [exact Hw|].
  destruct (backend db) as [h|p] eqn:Eb; [exact I|].
  destruct (Nat.leb_spec v (latest p)) as [_|Hv]; [exact Hw|].
  match goal with |- context [flush_oldest ?d] => set (db1 := d) end.
  assert (Hw1 : wf db1).
  { unfold wf in Hw |- *; rewrite Eb in Hw; cbn. destruct Hw as [Hd Hf].
    unfold latest in Hv. destruct (layers p) as [|l0 ls]; cbn in *.
    - repeat constructor; lia.
    - destruct Hd as [Hl0 Hd]. inversion Hf as [|x xs Hf0 Hf' Heq]; subst.
      split; [split; [constructor; [lia|] | split; assumption] |].
      + eapply Forall_impl; [|exact Hl0]. cbn; intros; lia.
      + constructor; [lia|]. constructor; assumption. }
  match goal with |- context [if ?c then _ else _] => destruct c end; [|exact Hw1].
  pose proof (wf_flush db1 Hw1) as Hw2.
  destruct (flush_oldest db1) as [d2 [u|e]]; cbn in *; assumption.
Qed.

Lemma wf_rollback db v : wf db -> wf (fst (rollback db v)).
Proof.
  intro Hw. unfold rollback.
  destruct (write_guard db); [exact Hw|].
  destruct (backend db) as [h|p] eqn:Eb; [exact Hw|].
  destruct (from_version v (layers p)) as [ls|] eqn:Ef; [|exact Hw].
  unfold wf in Hw |- *; rewrite Eb in Hw; cbn. destruct Hw as [Hd Hf].
  destruct (from_version_suffix _ _ _ Ef) as (pre & Hpre).
  rewrite Hpre, map_app in Hd, Hf. apply Forall_app in Hf as [_ Hf].
  split; [exact (proj1 (desc_app_r _ _ Hd)) | exact Hf].
Qed.

Lemma reachable_wf db : reachable db -> wf db.
Proof.
  induction 1 as [s c db Ho|db r b _ IH|db v _ IH|db v _ IH].
  - unfold open_db in Ho.
    destruct (marker s) as [m|];
      [destruct (String.eqb m (scheme_marker (scheme c)))|];
      try discriminate; inversion Ho; subst; unfold wf; cbn;
      destruct (scheme c); cbn; auto.
  - unfold stage. destruct (write_guard db); exact IH.
  - apply wf_commit, IH.
  - apply wf_rollback, IH.
Qed.

(** Within a well-formed chain, resolving at a layer's version starts the
    walk at that very layer. *)
Lemma resolve_at_layer db p pre l post r e :
  wf db -> backend db = PathBackend p ->
  layers p = pre ++ l :: post ->
  assoc r (l_changes l) = Some e ->
  resolve db r (l_version l) = match e with Some b => Ok b | None => Error NotFound end.
Proof.
  intros Hw Hb Hl He. unfold wf in Hw; rewrite Hb in Hw. destruct Hw as [Hd _].
  rewrite Hl, map_app in Hd. apply desc_app_r in Hd as [_ Hpre].
  assert (Hn : ~ In (l_version l) (map l_version pre)).
  { intro Hin. rewrite Forall_forall in Hpre. specialize (Hpre _ Hin).
    inversion Hpre; lia. }
  unfold resolve; rewrite Hb, Hl, (from_version_skip _ _ _ Hn).
  rewrite (from_version_head _ l post eq_refl); cbn. rewrite He.
  destruct e; reflexivity.
Qed.

(** ** Flush transparency (C7) *)

Lemma from_version_none v ls :
  Forall (fun x => v < l_version x) ls -> from_version v ls = None.
Proof.
  induction 1 as [|x ls Hx _ IH]; cbn; [reflexivity|].
  destruct (Nat.eqb_spec (l_version x) v); [lia | exact IH].
Qed.

Lemma latest_bounds p :
  desc (map l_version (layers p)) ->
  Forall (fun v => disk_version p < v) (map l_version (layers p)) ->
  disk_version p <= latest p /\ forall w, In w (map l_version (layers p)) -> w <= latest p.
Proof.
  unfold latest. destruct (layers p) as [|l ls]; cbn; intros Hd Hf.
  - split; [lia | intros w []].
  - inversion Hf; subst. destruct Hd as [Hl _]. split; [lia|].
    intros w [<-|Hin]; [lia|]. rewrite Forall_forall in Hl. specialize (Hl w Hin); lia.
Qed.

(** A commit that succeeds and pushes the chain past the retention depth
    adds its layer on top and flushes the oldest layer of the result. *)
Lemma commit_flush_inv db p v db' :
  backend db = PathBackend p ->
  retention_depth (config db) <= List.length (layers p) ->
  commit db v = (db', Ok tt) ->
  latest p < v /\
  flush_oldest (set_backend (set_staged db [])
    (PathBackend (mkPathDB (mkLayer v (map (fun e => (fst e, Some (snd e))) (staged db))
                              :: layers p) (disk_version p)))) = (db', Ok tt).
Proof.
  intros Hb Hd Hc. unfold commit in Hc.
  destruct (write_guard db); [discriminate|]. rewrite Hb in Hc.
  destruct (Nat.leb_spec v (latest p)) as [_|Hv]; [discriminate|].
  cbn [List.length layers] in Hc.
  destruct (Nat.ltb_spec (retention_depth (config db)) (S (List.length (layers p))));
    [|lia].
  split; [exact Hv|].
  match type of Hc with context [flush_oldest ?d] =>
    destruct (flush_oldest d) as [d2 [u|e]] end; [|discriminate].
  destruct u; inversion Hc; reflexivity.
Qed.

Lemma ex_db_pre3_reachable : reachable ex_db_pre3.
Proof.
  apply reach_stage, reach_commit, reach_stage, reach_commit, reach_stage.
  apply (reach_open (mkStore None [] None) (mkDbConfig SchemePath 1 false)).
  reflexivity.
Qed.

(** C7 (as stated fails): a commit-triggered flush changes what the version
    the Disk Snapshot represented before the flush resolves to.  With
    retention depth 1, after commits 1 ("a") and 2 ("b") the Disk Snapshot
    represents version 1; committing 3 flushes layer 2, and version 1 goes
    from "a" to NotFound. *)
Lemma flush_drops_previous_snapshot_version :
  ~ (forall db p v db' r w,
       reachable db -> backend db = PathBackend p ->
       retention_depth (config db) <= List.length (layers p) ->
       commit db v = (db', Ok tt) -> w <= latest p ->
       resolve db' r w = resolve db r w).
Proof.
  intro H.
  pose proof (H ex_db_pre3 (mkPathDB [mkLayer 2 [(ex_P, Some "b")]] 1) 3
                (fst (commit ex_db_pre3 3)) ex_P 1 ex_db_pre3_reachable eq_refl
                ltac:(cbn; lia) eq_refl ltac:(cbn; lia)) as H1.
  vm_compute in H1. discriminate H1.
Qed.

(** C7 (amended): in every reachable path-scheme state, when a successful
    commit pushes the chain past the retention depth and so merges the
    oldest layer into the Disk Snapshot, every reference resolves at every
    version whose layer was in the chain before the commit exactly as
    before; and the version the Disk Snapshot represented before the merge
    resolves to NotFound for every reference afterwards. *)
Theorem flush_transparent_for_live_versions db p v db'
    (Hr : reachable db) (Hb : backend db = PathBackend p)
    (Hdepth : retention_depth (config db) <= List.length (layers p))
    (Hc : commit db v = (db', Ok tt)) :
  (forall r w, In w (map l_version (layers p)) -> resolve db' r w = resolve db r w) /\
  (forall r, resolve db' r (disk_version p) = Error NotFound).
Proof.
  pose proof (reachable_wf db Hr) as Hw. unfold wf in Hw; rewrite Hb in Hw.
  destruct Hw as [Hd Hf]. destruct (latest_bounds p Hd Hf) as [Hdl Hle].
  destruct (commit_flush_inv db p v db' Hb Hdepth Hc) as [Hv Hfl].
  set (L := mkLayer v (map (fun e => (fst e, Some (snd e))) (staged db))) in Hfl.
  set (db1 := set_backend (set_staged db []) (PathBackend (mkPathDB (L :: layers p) (disk_version p)))) in Hfl.
  split.
  - intros r w Hin.
    rewrite <- (flush_oldest_resolve db1 db' _ r w eq_refl (or_intror Hin) Hfl).
    unfold resolve; rewrite Hb; cbn [db1 backend set_backend set_staged store layers disk_version from_version].
    specialize (Hle w Hin). destruct (Nat.eqb_spec (l_version L) w) as [E|_];
      [cbn in E; lia | reflexivity].
  - intro r. unfold flush_oldest in Hfl; cbn [db1 backend set_backend set_staged layers] in Hfl.
    destruct (split_last (L :: layers p)) as [[newer oldest]|] eqn:Es.
    2:{ destruct (split_last_nonempty (L :: layers p)) as (? & ? & E); [discriminate|congruence]. }
    destruct (store_batch _ _) as [s'|e]; [|discriminate].
    inversion Hfl; subst db'; clear Hfl.
    apply split_last_app in Es.
    assert (Hall : Forall (fun x => disk_version p < l_version x) (L :: layers p)).
    { constructor; [cbn; lia|]. rewrite Forall_forall in Hf |- *. intros x Hx. apply Hf, in_map, Hx. }
    rewrite Es in Hall. apply Forall_app in Hall as [Hn Ho]. inversion Ho; subst.
    unfold resolve; cbn [backend set_backend layers disk_version].
    rewrite (from_version_none _ _ Hn).
    destruct (Nat.eqb_spec (disk_version p) (l_version oldest)); [lia | reflexivity].
Qed.

Lemma flush_transparent_for_live_versions_witness :
  resolve (fst (commit ex_db_pre3 3)) ex_P 2 = resolve ex_db_pre3 ex_P 2 /\
  resolve (fst (commit ex_db_pre3 3)) ex_P 1 = Error NotFound.
Proof.
  destruct (flush_transparent_for_live_versions ex_db_pre3
              (mkPathDB [mkLayer 2 [(ex_P, Some "b")]] 1) 3 (fst (commit ex_db_pre3 3))
              ex_db_pre3_reachable eq_refl ltac:(cbn; lia) eq_refl) as [H1 H2].
  split; [exact (H1 ex_P 2 (or_introl eq_refl)) | exact (H2 ex_P)].
Defined.

(** Within a well-formed chain, resolving at a layer's version walks the
    chain from that layer down to the Disk Snapshot. *)
Lemma resolve_at_version db p pre l post r :
  wf db -> backend db = PathBackend p ->
  layers p = pre ++ l :: post ->
  resolve db r (l_version l) = walk (store db) r (l :: post).
Proof.
  intros Hw Hb Hl. unfold wf in Hw; rewrite Hb in Hw. destruct Hw as [Hd _].
  rewrite Hl, map_app in Hd. apply desc_app_r in Hd as [_ Hpre].
  assert (Hn : ~ In (l_version l) (map l_version pre)).
  { intro Hin. rewrite Forall_forall in Hpre. specialize (Hpre _ Hin).
    inversion Hpre; lia. }
  unfold resolve; rewrite Hb, Hl, (from_version_skip _ _ _ Hn).
  rewrite (from_version_head _ l post eq_refl). reflexivity.
Qed.

(** The walk passes over layers that have no entry for the reference. *)
Lemma walk_skip s r ls rest :
  Forall (fun x => assoc r (l_changes x) = None) ls ->
  walk s r (ls ++ rest) = walk s r rest.
Proof.
  induction 1 as [|x ls Hx _ IH]; cbn; [reflexivity|]. rewrite Hx. exact IH.
Qed.

(** C3: in every reachable path-scheme state, when two live layers [L2]
    (newer) and [L1] (older) both write [r], resolving at [L2]'s version
    returns [L2]'s bytes and resolving at [L1]'s version returns [L1]'s
    bytes.  In general the layer closest to the walk's starting point
    wins: resolving at any layer's version returns that layer's own entry
    for [r] whatever older layers hold; a walk that starts at a layer [l]
    without an entry for [r] returns the entry of the first layer [l']
    below it that has one, whatever layers further down hold; and when no
    layer from the start down has an entry, the Disk Snapshot answers. *)
Theorem path_latest_wins db p pre L2 mid L1 post r b1 b2
    (Hr : reachable db) (Hb : backend db = PathBackend p)
    (Hl : layers p = pre ++ L2 :: mid ++ L1 :: post)
    (H1 : assoc r (l_changes L1) = Some (Some b1))
    (H2 : assoc r (l_changes L2) = Some (Some b2)) :
  resolve db r (l_version L2) = Ok b2 /\
  resolve db r (l_version L1) = Ok b1 /\
  (forall pre' l post' e, layers p = pre' ++ l :: post' ->
     assoc r (l_changes l) = Some e ->
     resolve db r (l_version l) = match e with Some b => Ok b | None => Error NotFound end) /\
  (forall pre' l mid' l' post' e, layers p = pre' ++ l :: mid' ++ l' :: post' ->
     Forall (fun x => assoc r (l_changes x) = None) (l :: mid') ->
     assoc r (l_changes l') = Some e ->
     resolve db r (l_version l) = match e with Some b => Ok b | None => Error NotFound end) /\
  (forall pre' l post', layers p = pre' ++ l :: post' ->
     Forall (fun x => assoc r (l_changes x) = None) (l :: post') ->
     resolve db r (l_version l) =
     match store_get (store db) r with Some b => Ok b | None => Error NotFound end).
Proof.
  pose proof (reachable_wf db Hr) as Hw.
  split; [|split; [|split; [|split]]].
  - exact (resolve_at_layer db p pre L2 (mid ++ L1 :: post) r _ Hw Hb Hl H2).
  - apply (resolve_at_layer db p (pre ++ L2 :: mid) L1 post r (Some b1) Hw Hb); [|exact H1].
    rewrite Hl, <- app_assoc. reflexivity.
  - intros pre' l post' e Hl' He. exact (resolve_at_layer db p pre' l post' r e Hw Hb Hl' He).
  - intros pre' l mid' l' post' e Hl' Hnone He.
    rewrite (resolve_at_version db p pre' l (mid' ++ l' :: post') r Hw Hb Hl').
    change (l :: mid' ++ l' :: post') with ((l :: mid') ++ l' :: post').
    rewrite (walk_skip _ _ _ _ Hnone); cbn. rewrite He. destruct e; reflexivity.
  - intros pre' l post' Hl' Hnone.
    rewrite (resolve_at_version db p pre' l post' r Hw Hb Hl').
    rewrite <- (app_nil_r (l :: post')), (walk_skip _ _ _ _ Hnone). reflexivity.
Qed.

Lemma ex_db_two_reachable : reachable ex_db_two.
Proof.
  apply reach_commit, reach_stage, reach_commit, reach_stage.
  apply (reach_open (mkStore None [] None) (mkDbConfig SchemePath 2 false)).
  reflexivity.
Qed.

Lemma ex_db_three_reachable : reachable ex_db_three.
Proof.
  apply reach_commit, reach_stage, reach_commit, reach_stage, reach_commit, reach_stage.
  apply (reach_open (mkStore None [] None) (mkDbConfig SchemePath 3 false)).
  reflexivity.
Qed.

Lemma path_latest_wins_witness :
  resolve ex_db_two ex_P 2 = Ok "v2" /\ resolve ex_db_two ex_P 1 = Ok "v1" /\
  resolve ex_db_three ex_P 3 = Ok "v2".
Proof.
  destruct (path_latest_wins ex_db_two
              (mkPathDB [mkLayer 2 [(ex_P, Some "v2")]; mkLayer 1 [(ex_P, Some "v1")]] 0)
              [] (mkLayer 2 [(ex_P, Some "v2")]) [] (mkLayer 1 [(ex_P, Some "v1")]) []
              ex_P "v1" "v2" ex_db_two_reachable eq_refl eq_refl eq_refl eq_refl)
    as (H2 & H1 & _).
  destruct (path_latest_wins ex_db_three
              (mkPathDB [mkLayer 3 [(ex_Q, Some "q3")]; mkLayer 2 [(ex_P, Some "v2")];
                         mkLayer 1 [(ex_P, Some "v1")]] 0)
              [mkLayer 3 [(ex_Q, Some "q3")]] (mkLayer 2 [(ex_P, Some "v2")]) []
              (mkLayer 1 [(ex_P, Some "v1")]) []
              ex_P "v1" "v2" ex_db_three_reachable eq_refl eq_refl eq_refl eq_refl)
    as (_ & _ & _ & Hclosest & _).
  split; [exact H2 | split; [exact H1 |]].
  exact (Hclosest [] (mkLayer 3 [(ex_Q, Some "q3")]) [] (mkLayer 2 [(ex_P, Some "v2")])
             [mkLayer 1 [(ex_P, Some "v1")]] (Some "v2") eq_refl
             ltac:(repeat constructor) eq_refl).
Defined.

(** ** Reference-count underflow (C5) *)

Lemma hcount_insert h r r' b :
  hcount (hash_insert h r' b) r = if NodeRef_eq_dec r r' then S (hcount h r) else hcount h r.
Proof.
  unfold hcount. rewrite hash_insert_assoc.
  destruct (NodeRef_eq_dec r r'); [|reflexivity].
  destruct (assoc r (dirties h)) as [[b0 c]|]; reflexivity.
Qed.

Lemma hrun_underflow r ops :
  forall h pre post,
    hpoisoned h = false -> ops = pre ++ post ->
    hcount h r + n_insert r pre < n_deref r pre ->
    snd (hrun h ops) = Error CorruptState /\ hpoisoned (fst (hrun h ops)) = true.
Proof.
  induction ops as [|op t IH]; intros h pre post Hp Hs Hlt.
  { destruct pre; [cbn in Hlt; lia | discriminate]. }
  destruct pre as [|op' pre']; [cbn in Hlt; lia|].
  injection Hs as <- Ht.
  destruct op as [r' b|r']; cbn [hrun hstep].
  - unfold hinsert; rewrite Hp.
    apply (IH _ pre' post); [exact Hp | exact Ht|].
    cbn [n_insert n_deref] in Hlt. rewrite hcount_insert.
    destruct (NodeRef_eq_dec r r'); lia.
  - unfold hdereference; rewrite Hp.
    destruct (assoc r' (dirties h)) as [[b [|c]]|] eqn:E; [split; reflexivity| |split; reflexivity].
    apply (IH _ pre' post); [reflexivity | exact Ht|].
    cbn [n_insert n_deref] in Hlt. unfold hcount in Hlt |- *; cbn [dirties assoc].
    rewrite assoc_remove_spec.
    destruct (NodeRef_eq_dec r r') as [->|]; [rewrite E in Hlt; lia | exact Hlt].
Qed.

(** C5: starting from a healthy hash-scheme backend in which [r] has no
    references, any sequence of insert/dereference calls containing a
    prefix that dereferences [r] more often than it inserts [r] ends with a
    CorruptState error (the count is never clamped to zero); the backend is
    then marked corrupt, every further insert or dereference is refused with
    CorruptState, and so is every commit of a writable facade over it. *)
Theorem deref_underflow_is_corrupt h r ops pre post
    (Hp : hpoisoned h = false) (H0 : hcount h r = 0)
    (Hs : ops = pre ++ post) (Hmore : n_insert r pre < n_deref r pre) :
  snd (hrun h ops) = Error CorruptState /\
  hpoisoned (fst (hrun h ops)) = true /\
  (forall op, hstep (fst (hrun h ops)) op = (fst (hrun h ops), Error CorruptState)) /\
  (forall c s st v, read_only c = false ->
     commit (mkDatabase c s st (HashBackend (fst (hrun h ops)))) v =
     (mkDatabase c s st (HashBackend (fst (hrun h ops))), Error CorruptState)).
Proof.
  destruct (hrun_underflow r ops h pre post Hp Hs) as [He Hpz]; [lia|].
  split; [exact He|]. split; [exact Hpz|]. split.
  - intros [r' b|r']; cbn; unfold hinsert, hdereference; rewrite Hpz; reflexivity.
  - intros c s st v Hro. unfold commit, write_guard; cbn. rewrite Hro, Hpz. reflexivity.
Qed.

Lemma deref_underflow_is_corrupt_witness :
  snd (hrun (mkHashDB [] false) [HInsert ex_P "a"; HDeref ex_P; HDeref ex_P]) =
  Error CorruptState.
Proof.
  exact (proj1 (deref_underflow_is_corrupt (mkHashDB [] false) ex_P
                  [HInsert ex_P "a"; HDeref ex_P; HDeref ex_P]
                  [HInsert ex_P "a"; HDeref ex_P; HDeref ex_P] []
                  eq_refl eq_refl eq_refl ltac:(vm_compute; lia))).
Defined.

(** ** Rollback (C6) *)

Lemma from_version_again v l ls :
  from_version v l = Some ls -> from_version v ls = Some ls.
Proof.
  induction l as [|x l IH]; cbn; [discriminate|].
  destruct (Nat.eqb_spec (l_version x) v) as [E|_]; [|exact IH].
  intro H; inversion H; subst; cbn. rewrite Nat.eqb_refl. reflexivity.
Qed.

(** C6 (as stated fails): a rollback to a version absent from the chain
    does not always fail with Unwindable: on a read-only instance it is
    refused with CapabilityError. *)
Lemma rollback_read_only_not_unwindable :
  ~ (forall db p v, backend db = PathBackend p -> from_version v (layers p) = None ->
       snd (rollback db v) = Error Unwindable).
Proof.
  intro H. specialize (H ex_db_read_only (mkPathDB [] 0) 5 eq_refl eq_refl).
  vm_compute in H. discriminate H.
Qed.

(** C6 (amended): on a read-only instance rollback is refused with
    CapabilityError and changes nothing.  On a writable path-scheme
    instance, rollback(v) keeps exactly [v]'s layer and its ancestors
    (discarding the newer layers), and fails with Unwindable, changing
    nothing, when [v] is not in the chain.  In every case a second
    rollback(v) right after the first returns the same state and the same
    result: a no-op after success, the same Unwindable after failure. *)
Theorem rollback_semantics db p v (Hb : backend db = PathBackend p) :
  (read_only (config db) = true -> rollback db v = (db, Error CapabilityError)) /\
  (read_only (config db) = false ->
     (forall pre l post, layers p = pre ++ l :: post -> l_version l = v ->
        ~ In v (map l_version pre) ->
        rollback db v =
        (set_backend db (PathBackend (mkPathDB (l :: post) (disk_version p))), Ok tt)) /\
     (from_version v (layers p) = None -> rollback db v = (db, Error Unwindable))) /\
  rollback (fst (rollback db v)) v = rollback db v.
Proof.
  destruct db as [c s st b]; cbn in Hb; subst b.
  unfold rollback, write_guard; cbn [config backend].
  destruct (read_only c) eqn:Ero.
  - split; [reflexivity|]. split; [discriminate|]. cbn. rewrite Ero. reflexivity.
  - split; [discriminate|]. split.
    + intros _. split.
      * intros pre l post Hl Hv Hn. rewrite Hl, (from_version_skip _ _ _ Hn).
        rewrite (from_version_head _ l post Hv). reflexivity.
      * intro Hn; rewrite Hn; reflexivity.
    + destruct (from_version v (layers p)) as [ls|] eqn:Ef; cbn; rewrite Ero; cbn.
      * rewrite (from_version_again _ _ _ Ef). reflexivity.
      * rewrite Ef. reflexivity.
Qed.

Lemma rollback_semantics_witness :
  rollback ex_db_two 1 =
  (set_backend ex_db_two (PathBackend (mkPathDB [mkLayer 1 [(ex_P, Some "v1")]] 0)), Ok tt).
Proof.
  destruct (rollback_semantics ex_db_two
              (mkPathDB [mkLayer 2 [(ex_P, Some "v2")]; mkLayer 1 [(ex_P, Some "v1")]] 0)
              1 eq_refl) as [_ [Hw _]].
  exact (proj1 (Hw eq_refl) [mkLayer 2 [(ex_P, Some "v2")]] (mkLayer 1 [(ex_P, Some "v1")]) []
           eq_refl eq_refl ltac:(cbn; lia)).
Defined.

(** A pool keyed by [N] hashes, with a transaction's hash taken to be its
    own value, after adding the batch [1; 2]. *)
Lemma testTxPool_Add_Has_Get_witness :
  exists p' errs,
    Add (Transaction := N) id (@newTestTxPool N N) (map wrap [1%N; 2%N]) false true =
      Ret (p', errs) /\
    Has N.eq_dec p' 2%N = true /\
    Get N.eq_dec p' 2%N = Some (mkTxpoolTx (Some 2%N)) /\
    errs = repeat None 2.
Proof.
  exact (testTxPool_Add_Has_Get N.eq_dec id (fun a b H => H) (@newTestTxPool N N)
           [1%N; 2%N] false true 2%N ltac:(cbn; auto)).
Defined.

(** ** Extras: Trezor descriptors *)

Lemma run_calls_inv {FD GT} (C : list N -> list N) (B : list N -> list GT -> list Z -> FD)
    raw f calls : forall s,
  File_messages_ethereum_proto s = Some f ->
  (file_messages_ethereum_proto_rawDescOnce s = false /\
   file_messages_ethereum_proto_rawDescData s = raw \/
   file_messages_ethereum_proto_rawDescOnce s = true /\
   file_messages_ethereum_proto_rawDescData s = C raw) ->
  snd (run_calls C B s calls) =
    map (fun c => match c with CallDescriptor i => Some (C raw, [i]) | CallInit => None end)
      calls /\
  File_messages_ethereum_proto (fst (run_calls C B s calls)) = Some f.
Proof.
  induction calls as [|[i|] cs IH]; intros s Hf Hd; [split; [reflexivity | exact Hf]| |].
  - cbn [run_calls]. unfold message_Descriptor, file_messages_ethereum_proto_rawDescGZIP.
    destruct Hd as [[Ho Hr]|[Ho Hr]]; rewrite Ho, Hr.
    + destruct (IH {| File_messages_ethereum_proto := File_messages_ethereum_proto s;
                      file_messages_ethereum_proto_rawDesc := file_messages_ethereum_proto_rawDesc s;
                      file_messages_ethereum_proto_rawDescOnce := true;
                      file_messages_ethereum_proto_rawDescData := C raw;
                      file_messages_ethereum_proto_goTypes := file_messages_ethereum_proto_goTypes s;
                      file_messages_ethereum_proto_depIdxs := file_messages_ethereum_proto_depIdxs s |})
        as [H1 H2]; [exact Hf | right; split; reflexivity|].
      destruct (run_calls C B _ cs); cbn in *. rewrite H1; split; [reflexivity | exact H2].
    + destruct (IH s) as [H1 H2]; [exact Hf | right; split; assumption|].
      destruct (run_calls C B s cs); cbn in *. rewrite H1; split; [reflexivity | exact H2].
  - cbn [run_calls]. unfold file_messages_ethereum_proto_init at 1 2. rewrite Hf.
    destruct (IH s) as [H1 H2]; [exact Hf | exact Hd|].
    destruct (run_calls C B s cs); cbn in *. rewrite H1; split; [reflexivity | exact H2].
Qed.

(** After the package is initialised ([rawDescData] copied from the raw
    descriptor, then [init] building the file descriptor and clearing
    [rawDesc]), every [Descriptor] call of message [i], in any interleaving
    with further [init] calls, returns the raw descriptor compressed exactly
    once and the index path [[i]]; the file descriptor stays the one built
    from the raw descriptor, [goTypes] and [depIdxs]. *)
Theorem descriptor_compressed_once {FD GT} (C : list N -> list N)
    (B : list N -> list GT -> list Z -> FD) (raw : list N) (goTypes : list GT)
    (calls : list FileCall) :
  let s0 := file_messages_ethereum_proto_init B (package_vars raw goTypes) in
  snd (run_calls C B s0 calls) =
    map (fun c => match c with CallDescriptor i => Some (C raw, [i]) | CallInit => None end)
      calls /\
  File_messages_ethereum_proto (fst (run_calls C B s0 calls)) =
    Some (B raw goTypes [10; 1; 1; 1; 1; 0]%Z).
Proof.
  apply run_calls_inv; [reflexivity | left; split; reflexivity].
Qed.

(** ** Extras: discovery helpers *)

(** [min] returns the smaller of its arguments, [x] on a tie: it is
    [Z.min]. *)
Theorem discover_min_spec (x y : Z) :
  discover.min x y = Z.min x y /\ (discover.min x y <= x)%Z /\ (discover.min x y <= y)%Z.
Proof.
  unfold discover.min. destruct (Z.gtb_spec x y); repeat split; lia.
Qed.

(** ** Extras: the mock transaction pool *)

Section TxPoolExtras.
Context {Hash Transaction : Type}.
Context (dec : forall a b : Hash, {a = b} + {a <> b}).
Context (txHash : Transaction -> Hash).

Definition tx_of (w : ptr (@txpool_Transaction Transaction)) : ptr Transaction :=
  match w with Some x => Tx x | None => None end.

Lemma unwrap_ret (txs : list (ptr (@txpool_Transaction Transaction))) ws :
  unwrap txs = Ret ws <-> Forall (fun w => w <> None) txs /\ ws = map tx_of txs.
Proof.
  revert ws; induction txs as [|[w|] txs IH]; intro ws; cbn.
  - split; [intro H; inversion H; split; [constructor | reflexivity]
           | intros [_ ->]; reflexivity].
  - destruct (unwrap txs) as [ws'|e] eqn:U; cbn.
    + destruct (proj1 (IH ws') eq_refl) as [Hf ->].
      split; [intro H; inversion H; split; [constructor; [discriminate | exact Hf] | reflexivity]
             | intros [_ ->]; reflexivity].
    + split; [discriminate|]. intros [Hf _]. inversion Hf; subst.
      pose proof (proj2 (IH (map tx_of txs)) (conj H2 eq_refl)) as Hc; discriminate Hc.
  - split; [discriminate|]. intros [Hf _]. inversion Hf; subst. congruence.
Qed.

Lemma add_all_ret (m : list (Hash * ptr Transaction)) (ws : list (ptr Transaction)) :
  (exists m', add_all txHash m ws = Ret m') <-> Forall (fun x => x <> None) ws.
Proof.
  revert m; induction ws as [|[t|] ws IH]; intro m; cbn.
  - split; [constructor | eauto].
  - rewrite IH. split; [constructor; [discriminate | assumption] | inversion 1; assumption].
  - split; [intros [m' H]; discriminate | inversion 1; congruence].
Qed.

(** [Add] returns (does not panic) exactly when every wrapper of the
    batch is non-nil and wraps a non-nil transaction: [tx.Tx] reads
    through the wrapper and [tx.Hash()] through the transaction. *)
Theorem testTxPool_Add_succeeds_iff (p : testTxPool) txs (local sync : bool) :
  (exists r, Add txHash p txs local sync = Ret r) <->
  Forall (fun w => exists t, w = Some (mkTxpoolTx (Some t))) txs.
Proof.
  assert (Hw : forall txs, Forall (fun w => exists t, w = Some (mkTxpoolTx (Some t))) txs <->
                Forall (fun w => w <> None) txs /\
                Forall (fun x : ptr Transaction => x <> None) (map tx_of txs)).
  { clear. intro txs; rewrite Forall_map, !Forall_forall. split.
    - intro H; split; intros w Hin; destruct (H w Hin) as [t ->]; discriminate.
    - intros [H1 H2] w Hin. specialize (H2 w Hin). specialize (H1 w Hin).
      destruct w as [[[t|]]|]; [eauto | cbn in H2; congruence | congruence]. }
  rewrite Hw. unfold Add.
  destruct (unwrap txs) as [ws|e] eqn:U; cbn [go_bind].
  - destruct (proj1 (unwrap_ret txs ws) U) as [Hf ->].
    rewrite <- (add_all_ret (pool p)).
    destruct (add_all txHash (pool p) (map tx_of txs)) eqn:A; cbn.
    + split; [intros _; split; [exact Hf | eauto] | eauto].
    + split; [intros [r Hr]; discriminate | intros [_ [m' Hm]]; discriminate].
  - split; [intros [r Hr]; discriminate|].
    intros [Hf _]. rewrite (proj2 (unwrap_ret txs _) (conj Hf eq_refl)) in U. discriminate.
Qed.

Lemma map_get_last_with (batch : list Transaction) (h : Hash) :
  map_get dec (rev (map (fun t => (txHash t, Some t)) batch)) h =
  last_with dec txHash h batch.
Proof.
  induction batch as [|t batch IH] using rev_ind; [reflexivity|].
  rewrite map_app, rev_app_distr. unfold last_with; rewrite fold_left_app.
  fold (last_with dec txHash h batch). cbn [rev map app map_get fold_left].
  destruct (dec h (txHash t)), (dec (txHash t) h); congruence.
Qed.

(** After adding a batch of non-nil transactions, [Get h] returns the
    last transaction of the batch whose hash is [h] (a later one overwrites
    an earlier one), and what it returned before when none has hash [h];
    one [NewTxsEvent] holding the batch, in order, is sent on the feed; and
    the pool only gains non-nil entries. *)
Theorem testTxPool_Add_Get_last_wins (p : testTxPool) (batch : list Transaction)
    (local sync : bool) :
  exists p' errs,
    Add txHash p (map wrap batch) local sync = Ret (p', errs) /\
    (forall h, Get dec p' h =
       match last_with dec txHash h batch with
       | Some t => Some (mkTxpoolTx (Some t))
       | None => Get dec p h
       end) /\
    txFeed p' = txFeed p ++ [map Some batch] /\
    exists added, pool p' = added ++ pool p /\ Forall (fun kv => snd kv <> None) added.
Proof.
  unfold Add. rewrite unwrap_wrapped; cbn [go_bind].
  rewrite add_all_some; cbn [go_bind].
  eexists _, _; split; [reflexivity|]. cbn [pool txFeed].
  assert (Hnn : forall k' v, In (k', v) (rev (map (fun t => (txHash t, Some t)) batch)) -> v <> None).
  { intros k' v Hin. apply in_rev, in_map_iff in Hin. destruct Hin as (t & Ht & _).
    inversion Ht; discriminate. }
  split; [|split; [reflexivity|]].
  - intro h. unfold Get; cbn [pool]. rewrite (map_get_app dec _ _ h Hnn), map_get_last_with.
    destruct (last_with dec txHash h batch); reflexivity.
  - eexists; split; [reflexivity|]. apply Forall_forall. intros [k v] Hin. exact (Hnn k v Hin).
Qed.

(** [Has] and [Get] agree: [Get] returns a wrapper, always around a
    non-nil transaction, exactly when [Has] is true, and nil otherwise; a
    new pool has nothing. *)
Theorem testTxPool_Has_Get_agree (p : @testTxPool Hash Transaction) (h : Hash) :
  (Has dec p h = true <-> exists t, Get dec p h = Some (mkTxpoolTx (Some t))) /\
  (Has dec p h = false <-> Get dec p h = None) /\
  Has dec (@newTestTxPool Hash Transaction) h = false.
Proof.
  unfold Has, Get. destruct (map_get dec (pool p) h); cbn.
  - split; [split; eauto|]. split; [split; intro H; discriminate H | reflexivity].
  - split; [split; [intro H; discriminate H | intros [t H]; discriminate H]|].
    split; [split; reflexivity | reflexivity].
Qed.
End TxPoolExtras.

Section PendingProofs.
Context {Hash Transaction Address TimeT BigT : Type}.
Context (hash_eq_dec : forall a b : Hash, {a = b} + {a <> b}).
Context (addr_eq_dec : forall a b : Address, {a = b} + {a <> b}).
Context (txHash : Transaction -> Hash) (Sender : Transaction -> Address).
Context (tx_Time : Transaction -> TimeT) (tx_GasFeeCap tx_GasTipCap : Transaction -> BigT).
Context (sort_TxByNonce : list Transaction -> list Transaction).

Local Abbreviation lazy := (lazy_of txHash tx_Time tx_GasFeeCap tx_GasTipCap).
Local Abbreviation aget := (amap_get addr_eq_dec).
Local Abbreviation aappend := (amap_append addr_eq_dec).

Lemma amap_get_append {V} (m : list (Address * list V)) a a' x :
  aget (aappend m a x) a' = if addr_eq_dec a' a then aget m a' ++ [x] else aget m a'.
Proof.
  induction m as [|[b v] m IH]; cbn; [destruct (addr_eq_dec a' a); reflexivity|].
  destruct (addr_eq_dec a b) as [<-|Hab]; cbn.
  - destruct (addr_eq_dec a' a); reflexivity.
  - rewrite IH. destruct (addr_eq_dec a' b) as [->|]; [|reflexivity].
    destruct (addr_eq_dec b a); [congruence | reflexivity].
Qed.

Lemma amap_append_keys {V} (m : list (Address * list V)) a x k :
  In k (map fst (aappend m a x)) -> k = a \/ In k (map fst m).
Proof.
  induction m as [|[b v] m IH]; cbn; [intros [->|[]]; left; reflexivity|].
  destruct (addr_eq_dec a b); cbn; [tauto|].
  intros [->|H]; [right; left; reflexivity|]. destruct (IH H); tauto.
Qed.

Lemma amap_append_nodup {V} (m : list (Address * list V)) a x :
  NoDup (map fst m) -> NoDup (map fst (aappend m a x)).
Proof.
  induction m as [|[b v] m IH]; cbn; intro Hn; [constructor; [intros [] | constructor]|].
  destruct (addr_eq_dec a b); cbn; [exact Hn|].
  inversion Hn; subst. constructor; [|apply IH; assumption].
  intro Hin; apply amap_append_keys in Hin; destruct Hin; [congruence | contradiction].
Qed.

Lemma group_by_sender_ok b txs :
  Forall (fun x => x <> None) txs ->
  exists b', group_by_sender addr_eq_dec Sender b txs = Ret b' /\
    (forall a, aget b' a = aget b a ++ flat_map (sent_by addr_eq_dec Sender a) txs) /\
    (NoDup (map fst b) -> NoDup (map fst b')).
Proof.
  revert b; induction txs as [|x txs IH]; intros b Hf.
  - exists b; split; [reflexivity|]. split; [intro; rewrite app_nil_r; reflexivity | tauto].
  - inversion Hf as [|? ? Hx Hf']; subst. destruct x as [t|]; [|congruence].
    destruct (IH (aappend b (Sender t) t) Hf') as (b' & E & Hg & Hn).
    exists b'; split; [exact E|]. split.
    + intro a. rewrite Hg, amap_get_append. cbn [flat_map sent_by].
      destruct (addr_eq_dec a (Sender t)) as [->|Hne];
        destruct (addr_eq_dec (Sender t) _); try congruence;
        [rewrite <- app_assoc; reflexivity | reflexivity].
    + intro Hb; apply Hn, amap_append_nodup, Hb.
Qed.

Lemma amap_get_sorted (m : list (Address * list Transaction)) a :
  sort_TxByNonce [] = [] ->
  aget (map (fun '(a, b) => (a, sort_TxByNonce b)) m) a = sort_TxByNonce (aget m a).
Proof.
  intro H0; induction m as [|[b v] m IH]; cbn; [symmetry; exact H0|].
  destruct (addr_eq_dec a b); [reflexivity | exact IH].
Qed.

Lemma keys_sorted (m : list (Address * list Transaction)) :
  map fst (map (fun '(a, b) => (a, sort_TxByNonce b)) m) = map fst m.
Proof. induction m as [|[b v] m IH]; cbn; [reflexivity | rewrite IH; reflexivity]. Qed.

Lemma pending_inner addr batch pend a :
  aget (fold_left (fun pending tx => aappend pending addr (lazy tx)) batch pend) a =
  aget pend a ++ (if addr_eq_dec a addr then map lazy batch else []).
Proof.
  revert pend; induction batch as [|t batch IH]; intro pend; cbn.
  - destruct (addr_eq_dec a addr); rewrite app_nil_r; reflexivity.
  - rewrite IH, amap_get_append. destruct (addr_eq_dec a addr); [|reflexivity].
    rewrite <- app_assoc; reflexivity.
Qed.

Lemma pending_outer (bs : list (Address * list Transaction)) pend a :
  aget (fold_left (fun pending '(addr, batch) =>
                     fold_left (fun pending tx => aappend pending addr (lazy tx)) batch pending)
          bs pend) a =
  aget pend a ++
    flat_map (fun '(addr, batch) => if addr_eq_dec a addr then map lazy batch else []) bs.
Proof.
  revert pend; induction bs as [|[addr batch] bs IH]; intro pend; cbn.
  - rewrite app_nil_r; reflexivity.
  - rewrite IH, pending_inner, app_assoc; reflexivity.
Qed.

Lemma flat_map_one_key (bs : list (Address * list Transaction)) a :
  NoDup (map fst bs) ->
  flat_map (fun '(addr, batch) => if addr_eq_dec a addr then map lazy batch else []) bs =
  map lazy (aget bs a).
Proof.
  induction bs as [|[addr batch] bs IH]; cbn; intro Hn; [reflexivity|].
  inversion Hn as [|? ? Hni Hn']; subst.
  destruct (addr_eq_dec a addr) as [->|]; [|exact (IH Hn')].
  assert (Hz : forall bs', ~ In addr (map fst bs') ->
     flat_map (fun '(addr', batch) => if addr_eq_dec addr addr' then map lazy batch else []) bs'
     = []).
  { clear. induction bs' as [|[b v] bs' IH]; cbn; intro Hni; [reflexivity|].
    destruct (addr_eq_dec addr b); [subst; tauto|]. apply IH; tauto. }
  rewrite (Hz bs Hni), app_nil_r; reflexivity.
Qed.

Lemma map_get_keys_nonnil (m : list (Hash * ptr Transaction)) h :
  Forall (fun kv => snd kv <> None) m -> In h (map_keys hash_eq_dec m) ->
  map_get hash_eq_dec m h <> None.
Proof.
  induction m as [|[k v] m IH]; cbn; intros Hf Hin; [destruct Hin|].
  inversion Hf as [|? ? Hv Hf']; subst.
  destruct (hash_eq_dec h k) as [->|Hne]; [exact Hv|].
  destruct Hin as [->|Hin]; [congruence|].
  apply in_remove in Hin. exact (IH Hf' (proj1 Hin)).
Qed.

(** [Pending] groups the pool by sender: provided [sort.Sort] with
    [TxByNonce] leaves each batch a nonce-ordered permutation of itself, and
    the pool holds no nil transaction (which [Add] never stores), [Pending]
    does not panic, whatever order Go visits the pool in; for every
    address [a] its result holds the lazy form (hash, wrapped transaction,
    time, fee caps) of exactly the pooled transactions sent by [a], each
    once, in nonce order; [enforceTips] plays no part. *)
Theorem testTxPool_Pending_groups_by_sender (tx_Nonce : Transaction -> N)
    (p : @testTxPool Hash Transaction) (enforceTips : bool) (ord : list Hash)
    (Hnn : Forall (fun kv => snd kv <> None) (pool p))
    (Hord : Permutation ord (map_keys hash_eq_dec (pool p)))
    (Hperm : forall l, Permutation (sort_TxByNonce l) l)
    (Hsorted : forall l, Sorted (fun x y => (tx_Nonce x <= tx_Nonce y)%N) (sort_TxByNonce l)) :
  exists pending,
    Pending hash_eq_dec addr_eq_dec txHash Sender tx_Time tx_GasFeeCap tx_GasTipCap
      sort_TxByNonce p enforceTips ord = Ret pending /\
    forall a, exists s,
      aget pending a = map lazy s /\
      Sorted (fun x y => (tx_Nonce x <= tx_Nonce y)%N) s /\
      Permutation s (pool_txs_from hash_eq_dec addr_eq_dec Sender p a).
Proof.
  assert (Hf : Forall (fun x => x <> None) (map (map_get hash_eq_dec (pool p)) ord)).
  { apply Forall_map, Forall_forall. intros h Hin.
    apply (map_get_keys_nonnil _ _ Hnn), (Permutation_in _ Hord), Hin. }
  assert (H0 : sort_TxByNonce [] = []) by (apply Permutation_nil, Permutation_sym, Hperm).
  destruct (group_by_sender_ok [] _ Hf) as (b' & E & Hg & Hn).
  unfold Pending; rewrite E; cbn [go_bind].
  eexists; split; [reflexivity|]. intro a.
  exists (sort_TxByNonce (aget b' a)). split; [|split; [apply Hsorted|]].
  - rewrite pending_outer; cbn [amap_get app].
    rewrite flat_map_one_key, amap_get_sorted by
      (try rewrite keys_sorted; try apply Hn; try constructor; exact H0).
    reflexivity.
  - eapply Permutation_trans; [apply Hperm|].
    rewrite Hg; cbn [amap_get app]. unfold pool_txs_from.
    assert (Hfm : forall l : list Hash,
      flat_map (sent_by addr_eq_dec Sender a) (map (map_get hash_eq_dec (pool p)) l) =
      flat_map (fun h => sent_by addr_eq_dec Sender a (map_get hash_eq_dec (pool p) h)) l).
    { induction l as [|h l IH]; cbn; [reflexivity | rewrite IH; reflexivity]. }
    rewrite Hfm. exact (Permutation_flat_map _ Hord).
Qed.
End PendingProofs.

Lemma Sorted_map_mono {A B} (R : A -> A -> Prop) (R' : B -> B -> Prop) (f : A -> B) l :
  (forall x y, R x y -> R' (f x) (f y)) -> Sorted R l -> Sorted R' (map f l).
Proof.
  intros Hm Hs; induction Hs as [|a l Hs IH Hd]; cbn; constructor; [exact IH|].
  destruct Hd; cbn; constructor; apply Hm; assumption.
Qed.

Lemma nonce_sort_perm (l : list N) : Permutation (nonce_sort l) l.
Proof.
  unfold nonce_sort.
  transitivity (map N.of_nat (map N.to_nat l)).
  - apply Permutation_map, Permutation_sym, NatSort.Permuted_sort.
  - rewrite map_map. erewrite map_ext; [apply Permutation_refl'; apply map_id|].
    intro; apply N2Nat.id.
Qed.

Lemma nonce_sort_sorted (l : list N) : Sorted (fun x y => (x <= y)%N) (nonce_sort l).
Proof.
  unfold nonce_sort. eapply Sorted_map_mono; [|apply NatSort.Sorted_sort].
  intros x y H. cbv beta in H. apply Nat.leb_le in H. lia.
Qed.

(** Three transactions, each its own hash and nonce, sent from the
    address given by its parity, visited in the order 4, 3, 1. *)
Lemma testTxPool_Pending_groups_by_sender_witness :
  exists pending,
    Pending N.eq_dec N.eq_dec (fun t => t) (fun t => N.modulo t 2)
      (fun _ => tt) (fun _ => tt) (fun _ => tt) nonce_sort
      (mkTestTxPool [(3%N, Some 3%N); (4%N, Some 4%N); (1%N, Some 1%N)] []) false
      [4%N; 3%N; 1%N] = Ret pending /\
    forall a, exists s,
      amap_get N.eq_dec pending a =
        map (lazy_of (fun t => t) (fun _ => tt) (fun _ => tt) (fun _ => tt)) s /\
      Sorted (fun x y => (x <= y)%N) s /\
      Permutation s (pool_txs_from N.eq_dec N.eq_dec (fun t => N.modulo t 2)
                       (mkTestTxPool [(3%N, Some 3%N); (4%N, Some 4%N); (1%N, Some 1%N)] []) a).
Proof.
  exact (testTxPool_Pending_groups_by_sender N.eq_dec N.eq_dec (fun t => t) (fun t => N.modulo t 2)
           (fun _ => tt) (fun _ => tt) (fun _ => tt) nonce_sort (fun t => t)
           (mkTestTxPool [(3%N, Some 3%N); (4%N, Some 4%N); (1%N, Some 1%N)] []) false
           [4%N; 3%N; 1%N]
           ltac:(repeat constructor; cbn; discriminate)
           ltac:(vm_compute; apply perm_swap)
           nonce_sort_perm nonce_sort_sorted).
Defined.
